(** * Line-Image-Compressor: the per-file compression routine of [main.py]

    A shallow embedding of [src/main.py]: [file_size_mb],
    [strip_orientation], [compress_jpeg], [compress_png], [process_one] and
    the loop of [cli] over the files found.  The image codec (Pillow), the
    file system and the console are the program's collaborators: what they
    answer is a field of [Env], and every call the program makes to them is
    recorded in the [world] the program runs in.  The colours of
    [colour_status], the progress bar and the directory walk are left out.

    Numbers.  [file_size_mb] divides an integer byte count by [1024 * 1024];
    a division by a power of two is exact on binary floats for every count
    below [2^53], so sizes in MB are modelled as exact rationals [Q] with the
    denominator [1048576].  The command line's [--target-mb] is a float and
    may also be an infinity or a NaN, see [pyfloat]. *)

From Stdlib Require Import ZArith QArith Qabs Lia Ascii String.
From stdpp Require Import gmap strings list pretty.
From Equations Require Import Equations.

Local Open Scope Z_scope.

(** ** Exceptions and the program monad *)

(** A Python call either returns or raises an [Exception] carrying a
    message ([str(e)]). *)
Inductive result (A : Type) : Type :=
| Ok (a : A)
| Raise (msg : string).
Arguments Ok {A} a.
Arguments Raise {A} msg.

(** ** pathlib *)

Module PurePath.

(** A path is the list of its parent directories and its final
    component. *)
Record Path : Type := mkPath { parent : list string; name : string }.

#[global] Instance Path_eq_dec : EqDecision Path.
Proof. solve_decision. Defined.

#[global] Instance Path_countable : Countable Path.
Proof.
  refine (inj_countable' (λ p, (parent p, name p)) (λ t, mkPath t.1 t.2) _).
  by intros [].
Defined.

(** [rsplit_dot s] cuts [s] at its last dot: [Some (a, b)] with
    [s = a ++ b] and [b] starting at that dot ([s.rfind('.')]). *)
Fixpoint rsplit_dot (s : string) : option (string * string) :=
  match s with
  | EmptyString => None
  | String c r =>
      match rsplit_dot r with
      | Some (a, b) => Some (String c a, b)
      | None => if Ascii.eqb c "."%char then Some (EmptyString, s) else None
      end
  end.

(** [i = name.rfind('.')]; the suffix is [name[i:]] when
    [0 < i < len(name) - 1], and empty otherwise. *)
Definition suffix (p : Path) : string :=
  match rsplit_dot (name p) with
  | Some (a, b) =>
      if bool_decide (a ≠ EmptyString) && (1 <? String.length b)%nat
      then b else EmptyString
  | None => EmptyString
  end.

Definition stem (p : Path) : string :=
  match rsplit_dot (name p) with
  | Some (a, b) =>
      if bool_decide (a ≠ EmptyString) && (1 <? String.length b)%nat
      then a else name p
  | None => name p
  end.

(** [with_name] refuses a path whose own name is empty, with a
    [ValueError] (whose message is abridged here). *)
Definition with_name (p : Path) (n : string) : result Path :=
  if bool_decide (name p = EmptyString)
  then Raise "PurePath has an empty name"
  else Ok {| parent := parent p; name := n |}.

Definition with_stem (p : Path) (s : string) : result Path :=
  with_name p (s +:+ suffix p).

End PurePath.
Export PurePath.

(** ** Floats *)

(** The value of [--target-mb]: a finite float, which is a rational, or one
    of the three special values [float("inf")], [float("-inf")],
    [float("nan")]. *)
Inductive pyfloat : Type :=
| Finite (x : Q)
| PosInf
| NegInf
| NaN.

(** [x <= t] for a finite [x]. *)
Definition float_le (x : Q) (t : pyfloat) : bool :=
  match t with
  | Finite y => Qle_bool x y
  | PosInf => true
  | NegInf => false
  | NaN => false
  end.

(** Bytes to MB: [n / (1024 * 1024)]. *)
Definition MiB : positive := 1048576.

Definition size_mb (data : list Byte.byte) : Q :=
  Qmake (Z.of_nat (length data)) MiB.

(** [new_mb or orig_mb]: [None] and [0.0] are falsy. *)
Definition py_or (new_mb : option Q) (orig_mb : Q) : Q :=
  match new_mb with
  | Some m => if Qeq_bool m 0 then orig_mb else m
  | None => orig_mb
  end.

(** ** Images *)

Inductive exif_value : Type :=
| ExifInt (n : Z)
| ExifRaw (data : list Byte.byte).

(** What the program reads of a PIL image: the format tag, the EXIF
    dictionary behind [getexif()], [info.get("icc_profile")] and the pixel
    buffer. *)
Record image : Type := mkImage {
  format : option string;
  exif : gmap Z exif_value;
  icc_profile : option (list Byte.byte);
  pixels : list Byte.byte
}.

Definition with_format (img : image) (fmt : option string) : image :=
  {| format := fmt; exif := exif img;
     icc_profile := icc_profile img; pixels := pixels img |}.

Definition with_exif (img : image) (e : gmap Z exif_value) : image :=
  {| format := format img; exif := e;
     icc_profile := icc_profile img; pixels := pixels img |}.

(** ** The world: files, codec calls, console *)

Inductive event : Type :=
| EvOpen (p : Path)
| EvTranspose
| EvSaveJPEG (img : image) (quality : Z) (optimize : bool)
             (exif_bytes : list Byte.byte) (icc : option (list Byte.byte))
| EvSavePNG (p : Path) (optimize : bool) (compress_level : Z)
| EvWrite (p : Path) (data : list Byte.byte).

Record world : Type := mkWorld {
  files : gmap Path (list Byte.byte);
  log : list event;
  console : list (Path * string * Q)
}.

Definition M (A : Type) : Type := world → result A * world.

#[global] Instance M_ret : MRet M := λ A a w, (Ok a, w).

#[global] Instance M_bind : MBind M := λ A B f m w,
  match m w with
  | (Ok a, w') => f a w'
  | (Raise e, w') => (Raise e, w')
  end.

(** [try: m except Exception as e: h e] *)
Definition try_except {A : Type} (m : M A) (h : string → M A) : M A :=
  λ w, match m w with
       | (Ok a, w') => (Ok a, w')
       | (Raise e, w') => h e w'
       end.

Definition lift {A : Type} (r : result A) : M A := λ w, (r, w).

Definition record_event (ev : event) : M unit :=
  λ w, (Ok tt, {| files := files w; log := log w ++ [ev];
                  console := console w |}).

Definition set_files (fs : gmap Path (list Byte.byte)) (w : world) : world :=
  {| files := fs; log := log w; console := console w |}.

(** The outcome of [Image.save] to a file. *)
Inductive saved : Type :=
| Saved (data : list Byte.byte)
| SaveFailed (msg : string) (residue : option (list Byte.byte)).

(** What [Image.save(out_path, ...)] does to the files: it opens the target
    for writing and hands it to the encoder; when the encoder fails, a
    target that existed before is left with what was written so far
    ([residue]; [None] when it could not even be opened), and a target that
    the call created is removed again. *)
Definition store_saved (out_path : Path) (s : saved) : M unit :=
  λ w, match s with
       | Saved data => (Ok tt, set_files (<[out_path := data]> (files w)) w)
       | SaveFailed msg residue =>
           (Raise msg,
            match files w !! out_path, residue with
            | Some _, Some r => set_files (<[out_path := r]> (files w)) w
            | _, _ => w
            end)
       end.

(** What [out_path.write_bytes(data)] does to the files; [fault] is [None]
    when the write goes through, and otherwise the message of the [OSError]
    with what the failed write left in the file ([None]: the file is as
    before). *)
Definition store_written (out_path : Path) (data : list Byte.byte)
    (fault : option (string * option (list Byte.byte))) : M unit :=
  λ w, match fault with
       | None => (Ok tt, set_files (<[out_path := data]> (files w)) w)
       | Some (msg, None) => (Raise msg, w)
       | Some (msg, Some r) =>
           (Raise msg, set_files (<[out_path := r]> (files w)) w)
       end.

Definition console_print (p : Path) (label : string) (mb : Q) : M unit :=
  λ w, (Ok tt, {| files := files w; log := log w;
                  console := console w ++ [(p, label, mb)] |}).

(** ** The collaborators *)

(** Pillow and the operating system, as far as the program calls them.
    - [image_decode]: [Image.open] on a file's bytes;
    - [transpose]: [ImageOps.exif_transpose], which returns a new image
      (whose format tag Pillow does not carry over);
    - [tobytes]: [Exif.tobytes];
    - [jpeg_encode img quality optimize exif icc]: [img.save(buf, "JPEG")];
    - [png_encode img optimize compress_level]: the encoder behind
      [img.save(path, "PNG")], see [store_saved];
    - [write_fault p data]: whether [p.write_bytes(data)] fails, see
      [store_written];
    - [not_found p]: the message of the [FileNotFoundError] for [p]. *)
Record Env : Type := mkEnv {
  image_decode : list Byte.byte → result image;
  transpose : image → result image;
  tobytes : gmap Z exif_value → list Byte.byte;
  jpeg_encode : image → Z → bool → list Byte.byte →
                option (list Byte.byte) → result (list Byte.byte);
  png_encode : image → bool → Z → saved;
  write_fault : Path → list Byte.byte →
                option (string * option (list Byte.byte));
  not_found : Path → string
}.

(** The parsed command line ([argparse]). *)
Record Args : Type := mkArgs {
  target_mb : pyfloat;
  min_quality : Z;
  overwrite : bool
}.

Definition ORIENT : Z := 0x0112.

Section Program.

Context (E : Env).

(** *** Calls into the collaborators *)

(** [p.stat().st_size] *)
Definition st_size (p : Path) : M Z :=
  λ w, match files w !! p with
       | Some data => (Ok (Z.of_nat (length data)), w)
       | None => (Raise (not_found E p), w)
       end.

(** [file_size_mb], lines 27-28. *)
Definition file_size_mb (p : Path) : M Q :=
  n ← st_size p; mret (Qmake n MiB).

(** The file behind an open for reading. *)
Definition read_bytes (p : Path) : M (list Byte.byte) :=
  λ w, match files w !! p with
       | Some data => (Ok data, w)
       | None => (Raise (not_found E p), w)
       end.

(** [Image.open(path)] *)
Definition image_open (p : Path) : M image :=
  record_event (EvOpen p);;
  data ← read_bytes p;
  lift (image_decode E data).

(** [ImageOps.exif_transpose(img)] *)
Definition exif_transpose (img : image) : M image :=
  record_event EvTranspose;; lift (transpose E img).

(** [img.save(buf, format="JPEG", quality=q, optimize=o, exif=e,
    icc_profile=icc)] followed by [buf.getvalue()]. *)
Definition save_jpeg (img : image) (q : Z) (o : bool)
    (e : list Byte.byte) (icc : option (list Byte.byte))
    : M (list Byte.byte) :=
  record_event (EvSaveJPEG img q o e icc);; lift (jpeg_encode E img q o e icc).

(** [img.save(out_path, format="PNG", optimize=o, compress_level=c)] *)
Definition save_png (img : image) (out_path : Path) (o : bool) (c : Z)
    : M unit :=
  record_event (EvSavePNG out_path o c);;
  store_saved out_path (png_encode E img o c).

(** [out_path.write_bytes(data)] *)
Definition write_bytes (out_path : Path) (data : list Byte.byte) : M unit :=
  record_event (EvWrite out_path data);;
  store_written out_path data (write_fault E out_path data).

(** *** [strip_orientation], lines 30-35

    The dictionary is updated in place and serialised: the function
    returns the dictionary as it is after the call together with the
    bytes. *)
Definition strip_orientation (e : gmap Z exif_value)
    : gmap Z exif_value * list Byte.byte :=
  let e' := match e !! ORIENT with
            | Some _ => <[ORIENT := ExifInt 1]> e
            | None => e
            end in
  (e', tobytes E e').

(** *** [compress_jpeg], lines 52-70 *)

(** The [while lo <= hi] loop of lines 55-66.  [img.getexif()] hands out
    the image's own dictionary, so the update made by [strip_orientation]
    stays in the image for the next round. *)
Equations? jpeg_search (img : image) (target : pyfloat) (lo hi : Z)
    (best : option (list Byte.byte * Z)) (w : world)
    : result (option (list Byte.byte * Z)) * world
    by wf (Z.to_nat (hi - lo + 1)) lt :=
jpeg_search img target lo hi best w with decide (lo ≤ hi) := {
  | right _ => (Ok best, w)
  | left _ =>
      let q := (lo + hi) / 2 in
      let ex := strip_orientation (exif img) in
      let img' := with_exif img ex.1 in
      match save_jpeg img' q true ex.2 (icc_profile img') w with
      | (Raise e, w') => (Raise e, w')
      | (Ok buf, w') =>
          if float_le (size_mb buf) target
          then jpeg_search img' target (q + 1) hi (Some (buf, q)) w'
          else jpeg_search img' target lo (q - 1) best w'
      end }.
Proof.
  all: subst q;
    assert (lo ≤ (lo + hi) / 2 ≤ hi)
      by (split; [apply Z.div_le_lower_bound | apply Z.div_le_upper_bound];
          lia);
    lia.
Qed.

Definition compress_jpeg (img : image) (out_path : Path) (target : pyfloat)
    (min_q max_q : Z) : M (bool * option Z * option Q) :=
  best ← jpeg_search img target min_q max_q None;
  match best with
  | None => mret (false, None, None)
  | Some (best_bytes, best_q) =>
      write_bytes out_path best_bytes;;
      new_mb ← file_size_mb out_path;
      mret (true, Some best_q, Some new_mb)
  end.

(** *** [compress_png], lines 72-75 *)
Definition compress_png (img : image) (out_path : Path) (target : pyfloat)
    : M (bool * Q) :=
  save_png img out_path true 9;;
  new_mb ← file_size_mb out_path;
  mret (float_le new_mb target, new_mb).

(** *** [process_one], lines 78-108 *)

(** [f"{x}"] for a value that may be [None]. *)
Definition str_opt {A : Type} (f : A → string) (x : option A) : string :=
  match x with
  | Some a => f a
  | None => "None"
  end.

(** Line 90: [path if args.overwrite else
    path.with_stem(path.stem + "_compressed")]. *)
Definition output_path (path : Path) (args : Args) : result Path :=
  if overwrite args then Ok path
  else with_stem path (stem path +:+ "_compressed").

(** The body of the [try] statement, lines 85-105. *)
Definition try_body (path : Path) (args : Args) (orig_mb : Q)
    : M (string * Q) :=
  img ← image_open path;
  let fmt := format img in
  img ← exif_transpose img;
  let img := with_format img fmt in
  out ← lift (output_path path args);
  if bool_decide (fmt = Some "JPEG") then
    '(ok, q, new_mb) ← compress_jpeg img out (target_mb args)
                                      (min_quality args) 100;
    let label :=
      if ok : bool then "JPEG ✓ (q=" +:+ str_opt pretty q +:+ ")"
      else "JPEG ✗ (≥q" +:+ pretty (min_quality args) +:+ " still big)" in
    mret (label, py_or new_mb orig_mb)
  else if bool_decide (fmt = Some "PNG") then
    '(ok, new_mb) ← compress_png img out (target_mb args);
    let label := if ok : bool then "PNG ✓" else "PNG ✗ (still big)" in
    mret (label, new_mb)
  else
    mret (str_opt id fmt +:+ " unsupported", orig_mb).

Definition process_one (path : Path) (args : Args) : M (string * Q) :=
  orig_mb ← file_size_mb path;
  if Qle_bool orig_mb 19 then mret ("skip (≤19 MB)", orig_mb)
  else try_except (try_body path args orig_mb)
                  (λ e, mret ("error: " +:+ e, orig_mb)).

(** *** The loop of [cli], lines 144-147 *)
Fixpoint cli_loop (fl : list Path) (args : Args) : M unit :=
  match fl with
  | [] => mret tt
  | p :: rest =>
      '(label, mb) ← process_one p args;
      console_print p label mb;;
      cli_loop rest args
  end.

End Program.

(** * Specification vocabulary *)

Definition add_event (ev : event) (w : world) : world :=
  {| files := files w; log := log w ++ [ev]; console := console w |}.

Section Vocabulary.

Context (E : Env).

(** The image as it is once [strip_orientation] has gone over its EXIF
    dictionary, and the bytes handed to the encoder. *)
Definition normalized (img : image) : image :=
  with_exif img (strip_orientation E (exif img)).1.

Definition exif_bytes (img : image) : list Byte.byte :=
  (strip_orientation E (exif img)).2.

(** The encoder call of one round of the search, at quality [q]. *)
Definition probe (img : image) (q : Z) : result (list Byte.byte) :=
  jpeg_encode E (normalized img) q true (exif_bytes img) (icc_profile img).

(** The encoding at quality [q] exists and is within the target. *)
Definition fits (img : image) (target : pyfloat) (q : Z) : bool :=
  match probe img q with
  | Ok buf => float_le (size_mb buf) target
  | Raise _ => false
  end.

Definition probe_event (img : image) (q : Z) : event :=
  EvSaveJPEG (normalized img) q true (exif_bytes img) (icc_profile img).

(** Meeting the target is monotone in the quality over [[lo, hi]]: when
    the encoding at some quality is within the target, so is the encoding
    at every lower quality of the interval (as when the encoded size grows
    with the quality). *)
Definition fit_monotone (img : image) (target : pyfloat) (lo hi : Z) : Prop :=
  ∀ q1 q2, lo ≤ q1 → q1 ≤ q2 → q2 ≤ hi →
           fits img target q2 = true → fits img target q1 = true.

(** The brute-force scan the search is compared with: try the qualities
    from [hi] downwards, [n] of them, and return the first whose encoding
    is within the target. *)
Fixpoint scan_down (img : image) (target : pyfloat) (n : nat) (hi : Z)
    : option Z :=
  match n with
  | O => None
  | S n' => if fits img target hi then Some hi
            else scan_down img target n' (hi - 1)
  end.

Definition brute_force_max (img : image) (target : pyfloat) (lo hi : Z)
    : option Z :=
  scan_down img target (Z.to_nat (hi - lo + 1)) hi.

(** A successful [compress_jpeg] picked a quality of [[min_q, max_q]],
    wrote that quality's encoding, which is within the target, reports its
    size, and no higher quality of the interval has an encoding within the
    target: the quality is the one the brute-force scan finds. *)
Definition picks_highest_fit (img : image) (out_path : Path)
    (target : pyfloat) (min_q max_q : Z) (w : world) : Prop :=
  ∀ q mb w',
    compress_jpeg E img out_path target min_q max_q w
      = (Ok (true, Some q, Some mb), w') →
    min_q ≤ q ≤ max_q ∧
    (∃ buf, probe img q = Ok buf ∧ files w' !! out_path = Some buf ∧
            mb = size_mb buf) ∧
    float_le mb target = true ∧
    (∀ q', min_q ≤ q' ≤ max_q → fits img target q' = true → q' ≤ q) ∧
    brute_force_max img target min_q max_q = Some q.

(** One round of the search on a non-empty interval, and its cost: the
    probe is the midpoint, it lies in the interval, the loop goes on with
    [[mid + 1, hi]] or [[lo, mid - 1]], both of them narrower, an empty
    interval ends the loop, and the whole search calls the encoder at most
    once per value of the interval. *)
Definition search_terminates (img : image) (target : pyfloat) (lo hi : Z)
    (best : option (list Byte.byte * Z)) (w : world) : Prop :=
  let mid := (lo + hi) / 2 in
  let w1 := add_event (probe_event img mid) w in
  lo ≤ mid ≤ hi ∧
  jpeg_search E img target lo hi best w =
    match probe img mid with
    | Raise e => (Raise e, w1)
    | Ok buf =>
        if float_le (size_mb buf) target
        then jpeg_search E (normalized img) target (mid + 1) hi
                         (Some (buf, mid)) w1
        else jpeg_search E (normalized img) target lo (mid - 1) best w1
    end ∧
  (0 ≤ hi - (mid + 1) + 1 < hi - lo + 1) ∧
  (0 ≤ (mid - 1) - lo + 1 < hi - lo + 1) ∧
  (∀ img' lo' hi' best' w', hi' < lo' →
     jpeg_search E img' target lo' hi' best' w' = (Ok best', w')) ∧
  ∃ qs, log (jpeg_search E img target lo hi best w).2
          = log w ++ map (probe_event img) qs ∧
        Forall (λ q, lo ≤ q ≤ hi) qs ∧
        (length qs ≤ Z.to_nat (hi - lo + 1))%nat.

End Vocabulary.

(** ** Labels and intermediate worlds *)

Definition skip_label : string := "skip (≤19 MB)".

Definition jpeg_label (ok : bool) (q : option Z) (min_q : Z) : string :=
  if ok then "JPEG ✓ (q=" +:+ str_opt pretty q +:+ ")"
  else "JPEG ✗ (≥q" +:+ pretty min_q +:+ " still big)".

Definition png_label (ok : bool) : string :=
  if ok then "PNG ✓" else "PNG ✗ (still big)".

(** The world after [Image.open] and after [exif_transpose]. *)
Definition opened (path : Path) (w : world) : world :=
  add_event (EvOpen path) w.

Definition transposed (path : Path) (w : world) : world :=
  add_event EvTranspose (opened path w).

(** 19 MB in bytes. *)
Definition skip_threshold : Z := 19 * (1024 * 1024).

(** ** Frames and events *)

(** From [w] to [w'] no file but [out] changed, no file disappeared, and
    nothing was printed. *)
Definition touches_only (out : result Path) (w w' : world) : Prop :=
  (∀ p, out ≠ Ok p → files w' !! p = files w !! p) ∧
  (∀ p, is_Some (files w !! p) → is_Some (files w' !! p)) ∧
  console w' = console w.

(** The file an event writes to. *)
Definition event_target (ev : event) : option Path :=
  match ev with
  | EvWrite p _ => Some p
  | EvSavePNG p _ _ => Some p
  | _ => None
  end.

(** [path] is a file of more than 19 MiB that decodes to [d], with format
    tag [fmt], and [d] transposes to [t]. *)
Definition decodes_to (E : Env) (path : Path) (w : world)
    (data : list Byte.byte) (d t : image) (fmt : string) : Prop :=
  files w !! path = Some data ∧
  skip_threshold < Z.of_nat (length data) ∧
  image_decode E data = Ok d ∧
  format d = Some fmt ∧
  transpose E d = Ok t.

(** The events [process_one] can add for one file: the open, the
    transposition, the JPEG encodes of the search on the transposed image
    carrying the format tag of the decoded one, and the writes to the
    output path. *)
Definition file_event (E : Env) (path : Path) (args : Args) (w : world)
    (ev : event) : Prop :=
  ev = EvOpen path ∨ ev = EvTranspose ∨
  (∃ data d t q,
      files w !! path = Some data ∧ image_decode E data = Ok d ∧
      transpose E d = Ok t ∧ format d = Some "JPEG" ∧
      min_quality args ≤ q ≤ 100 ∧
      ev = probe_event E (with_format t (format d)) q) ∨
  (∃ out, output_path path args = Ok out ∧
          (ev = EvSavePNG out true 9 ∨ ∃ buf, ev = EvWrite out buf)).

(** ** The claims about one file, as predicates *)

Section FileClaims.

Context (E : Env).

(** Where the output goes.  With [--overwrite] the output path is the file
    itself; without it the output path is the sibling whose stem has
    [_compressed] appended and whose suffix is kept, and the file itself
    is not changed.  In both modes no file but the output path changes, and
    every write of the run goes to the output path. *)
Definition output_placement (path : Path) (args : Args) (w : world) : Prop :=
  let w' := (process_one E path args w).2 in
  (if overwrite args then output_path path args = Ok path
   else (name path ≠ EmptyString →
         output_path path args
           = Ok {| parent := parent path;
                   name := (stem path +:+ "_compressed") +:+ suffix path |}) ∧
        stem path +:+ suffix path = name path ∧
        files w' !! path = files w !! path) ∧
  (∀ p, output_path path args ≠ Ok p → files w' !! p = files w !! p) ∧
  (∃ evs, log w' = log w ++ evs ∧
          ∀ ev p, ev ∈ evs → event_target ev = Some p →
                  output_path path args = Ok p).

(** Every JPEG encode of the run is handed the transposed image with the
    format tag read before the transposition, and the serialised EXIF
    dictionary of that image, in which the orientation is 1 if the tag is
    there at all and every other tag is as the transposition left it. *)
Definition encodes_carry_upright_exif (path : Path) (args : Args) (w : world)
    : Prop :=
  ∃ evs, log (process_one E path args w).2 = log w ++ evs ∧
  ∀ img q o ex icc, EvSaveJPEG img q o ex icc ∈ evs →
    ∃ data d t,
      files w !! path = Some data ∧ image_decode E data = Ok d ∧
      transpose E d = Ok t ∧
      format d = Some "JPEG" ∧ format img = format d ∧
      pixels img = pixels t ∧ icc = icc_profile t ∧ o = true ∧
      ex = tobytes E (exif img) ∧
      exif img !! ORIENT = (λ _, ExifInt 1) <$> exif t !! ORIENT ∧
      (∀ tag, tag ≠ ORIENT → exif img !! tag = exif t !! tag).

(** [compress_png] calls the encoder once, with [optimize=True] and
    [compress_level=9], and nothing else; when it returns, the file holds
    the encoding, the size returned is the encoding's, and the flag
    returned says whether that size is at most the target. *)
Definition png_single_encode (img : image) (out : Path) (target : pyfloat)
    (w : world) : Prop :=
  let r := compress_png E img out target w in
  log r.2 = log w ++ [EvSavePNG out true 9] ∧
  (∀ ok mb, r.1 = Ok (ok, mb) →
     ∃ data, png_encode E img true 9 = Saved data ∧
             files r.2 !! out = Some data ∧ mb = size_mb data ∧
             (ok = true ↔ float_le mb target = true) ∧
             (∀ t, target = Finite t → (ok = true ↔ (mb <= t)%Q))) ∧
  (∀ msg, r.1 = Raise msg → ∃ residue,
     png_encode E img true 9 = SaveFailed msg residue).

(** Every quality of [[lo, hi]] encodes, and no encoding is within the
    target. *)
Definition no_quality_fits (img : image) (target : pyfloat) (lo hi : Z)
    : Prop :=
  ∀ q, lo ≤ q ≤ hi →
       ∃ buf, probe E img q = Ok buf ∧ float_le (size_mb buf) target = false.

(** The JPEG compression of the file failed and [process_one] reports the
    failure label together with [size]. *)
Definition failure_reported (path : Path) (args : Args) (w : world)
    (d t : image) (out : Path) (size : Q) : Prop :=
  ∃ w',
    compress_jpeg E (with_format t (format d)) out (target_mb args)
                  (min_quality args) 100 (transposed path w)
      = (Ok (false, None, None), w') ∧
    process_one E path args w
      = (Ok (jpeg_label false None (min_quality args), size), w').

(** The claim that a failed JPEG compression reports the size of the
    encoding at the minimum quality. *)
Definition reports_size_at_min_quality (path : Path) (args : Args)
    (w : world) : Prop :=
  ∀ data d t out buf,
    decodes_to E path w data d t "JPEG" →
    output_path path args = Ok out →
    no_quality_fits (with_format t (format d)) (target_mb args)
                    (min_quality args) 100 →
    probe E (with_format t (format d)) (min_quality args) = Ok buf →
    failure_reported path args w d t out (size_mb buf).

(** A JPEG search that found nothing: [compress_jpeg] returns failure in
    the world [w1] the search ended in, which differs from the world after
    the transposition by encoder calls only; no file changed, the file
    itself holds its original bytes, and [process_one] reports the
    failure. *)
Definition original_untouched (path : Path) (args : Args) (w : world)
    (data : list Byte.byte) (d t : image) (out : Path) (w1 : world) : Prop :=
  let img := with_format t (format d) in
  compress_jpeg E img out (target_mb args) (min_quality args) 100
                (transposed path w) = (Ok (false, None, None), w1) ∧
  (∃ qs, log w1 = log (transposed path w) ++ map (probe_event E img) qs) ∧
  files w1 = files w ∧
  files w1 !! path = Some data ∧
  process_one E path args w
    = (Ok (jpeg_label false None (min_quality args), size_mb data), w1).

(** A PNG whose encoding [encoded] is over the target, with
    [--overwrite]: the encoding is in the file all the same, the one new
    event after the transposition is the save, and the failure is
    reported with the size of the encoding. *)
Definition png_replaces_original (path : Path) (args : Args) (w : world)
    (d t : image) (encoded : list Byte.byte) : Prop :=
  let img := with_format t (format d) in
  (∀ out target w0,
      files (compress_png E img out target w0).2 !! out = Some encoded) ∧
  ∃ w',
    compress_png E img path (target_mb args) (transposed path w)
      = (Ok (false, size_mb encoded), w') ∧
    log w' = log (transposed path w) ++ [EvSavePNG path true 9] ∧
    files w' !! path = Some encoded ∧
    process_one E path args w = (Ok (png_label false, size_mb encoded), w').

End FileClaims.

(** ** The claims about a run, as predicates *)

(** The world after one status line was printed. *)
Definition printed (line : Path * string * Q) (w : world) : world :=
  {| files := files w; log := log w; console := console w ++ [line] |}.

(** [reports E args w fl lines w']: going through the files [fl] from the
    world [w], [process_one] returns for each file in turn, its label and
    size are printed as that file's line, and the run ends in [w']. *)
Inductive reports (E : Env) (args : Args)
    : world → list Path → list (Path * string * Q) → world → Prop :=
| reports_done w : reports E args w [] [] w
| reports_next w p label mb w1 rest lines w' :
    process_one E p args w = (Ok (label, mb), w1) →
    reports E args (printed (p, label, mb) w1) rest lines w' →
    reports E args w (p :: rest) ((p, label, mb) :: lines) w'.

(** The loop over the files runs to its end and prints one line per file,
    in order; whatever the [try] body of a file raises comes back from
    [process_one] as an error label with the size of the original file:
    so it is for a file that does not decode, for a JPEG encode that
    fails, for a write of the best JPEG encoding that fails, and for a PNG
    save that fails. *)
Definition resilient_run (E : Env) (fl : list Path) (args : Args) (w : world)
    : Prop :=
  (∃ lines w',
      cli_loop E fl args w = (Ok tt, w') ∧
      reports E args w fl lines w' ∧
      console w' = console w ++ lines ∧
      map (λ line, line.1.1) lines = fl) ∧
  (∀ path w0 data e w1,
      files w0 !! path = Some data →
      skip_threshold < Z.of_nat (length data) →
      try_body E path args (size_mb data) w0 = (Raise e, w1) →
      process_one E path args w0 = (Ok ("error: " +:+ e, size_mb data), w1)) ∧
  (∀ path w0 data e,
      files w0 !! path = Some data →
      skip_threshold < Z.of_nat (length data) →
      image_decode E data = Raise e →
      process_one E path args w0
        = (Ok ("error: " +:+ e, size_mb data), opened path w0)) ∧
  (∀ path w0 data d t out e w1,
      decodes_to E path w0 data d t "JPEG" →
      output_path path args = Ok out →
      jpeg_search E (with_format t (format d)) (target_mb args)
                  (min_quality args) 100 None (transposed path w0)
        = (Raise e, w1) →
      process_one E path args w0 = (Ok ("error: " +:+ e, size_mb data), w1)) ∧
  (∀ path w0 data d t out buf q w1 msg residue,
      decodes_to E path w0 data d t "JPEG" →
      output_path path args = Ok out →
      jpeg_search E (with_format t (format d)) (target_mb args)
                  (min_quality args) 100 None (transposed path w0)
        = (Ok (Some (buf, q)), w1) →
      write_fault E out buf = Some (msg, residue) →
      (process_one E path args w0).1
        = Ok ("error: " +:+ msg, size_mb data)) ∧
  (∀ path w0 data d t out msg residue,
      decodes_to E path w0 data d t "PNG" →
      output_path path args = Ok out →
      png_encode E (with_format t (format d)) true 9
        = SaveFailed msg residue →
      (process_one E path args w0).1
        = Ok ("error: " +:+ msg, size_mb data)).

(** ** Concrete collaborators, for the examples *)

(** [n] zero bytes. *)
Definition blob (n : Z) : list Byte.byte := repeat Byte.x00 (Z.to_nat n).

(** A decoded JPEG whose EXIF asks for a rotation. *)
Definition photo : image :=
  {| format := Some "JPEG"; exif := {[ ORIENT := ExifInt 6 ]};
     icc_profile := None; pixels := [] |}.

(** A codec whose JPEG encoding at quality [q] has [q - 80] bytes. *)
Definition steady_codec : Env :=
  {| image_decode := λ _, Ok photo;
     transpose := λ img, Ok (with_format img None);
     tobytes := λ _, [];
     jpeg_encode := λ _ q _ _ _, Ok (blob (q - 80));
     png_encode := λ _ _ _, Saved (blob 4);
     write_fault := λ _ _, None;
     not_found := λ p, "[Errno 2] No such file or directory: " +:+ name p |}.

(** The same codec, except that quality 100 encodes to 4 bytes: its sizes
    are not monotone in the quality. *)
Definition dipping_codec : Env :=
  {| image_decode := λ _, Ok photo;
     transpose := λ img, Ok (with_format img None);
     tobytes := λ _, [];
     jpeg_encode := λ _ q _ _ _, Ok (blob (if q =? 100 then 4 else q - 80));
     png_encode := λ _ _ _, Saved (blob 4);
     write_fault := λ _ _, None;
     not_found := λ p, "[Errno 2] No such file or directory: " +:+ name p |}.

Definition empty_world : world :=
  {| files := ∅; log := []; console := [] |}.

Definition sidecar : Path :=
  {| parent := ["photos"]; name := "a_compressed.jpg" |}.

(** A target of ten bytes. *)
Definition ten_bytes : pyfloat := Finite (Qmake 10 MiB).

(** A target of two bytes. *)
Definition two_bytes : pyfloat := Finite (Qmake 2 MiB).

(** A decoded PNG, and a codec that decodes to it and encodes it to thirty
    bytes. *)
Definition drawing : image :=
  {| format := Some "PNG"; exif := ∅; icc_profile := None; pixels := [] |}.

Definition png_codec : Env :=
  {| image_decode := λ _, Ok drawing;
     transpose := λ img, Ok (with_format img None);
     tobytes := λ _, [];
     jpeg_encode := λ _ q _ _ _, Ok (blob (q - 80));
     png_encode := λ _ _ _, Saved (blob 30);
     write_fault := λ _ _, None;
     not_found := λ p, "[Errno 2] No such file or directory: " +:+ name p |}.

(** A codec that cannot read the file. *)
Definition broken_codec : Env :=
  {| image_decode := λ _, Raise "cannot identify image file";
     transpose := λ img, Ok (with_format img None);
     tobytes := λ _, [];
     jpeg_encode := λ _ q _ _ _, Ok (blob (q - 80));
     png_encode := λ _ _ _, Saved (blob 30);
     write_fault := λ _ _, None;
     not_found := λ p, "[Errno 2] No such file or directory: " +:+ name p |}.

Definition original : Path := {| parent := ["photos"]; name := "a.jpg" |}.

(** A file of 19922945 bytes, one byte over 19 MiB.  Its bytes (all zero)
    stay behind [Qed], so that no evaluation ever builds the list. *)
Definition large_file_exists :
  { data : list Byte.byte | Z.of_nat (length data) = 19922945 }.
Proof.
  exists (repeat Byte.x00 (Z.to_nat 19922945)).
  rewrite repeat_length, Z2Nat.id; lia.
Qed.

Definition large_file : list Byte.byte := proj1_sig large_file_exists.

Definition large_world : world :=
  {| files := {[ original := large_file ]}; log := []; console := [] |}.

Definition small_world : world :=
  {| files := {[ original := blob 5 ]}; log := []; console := [] |}.

Definition overwriting (target : pyfloat) : Args :=
  {| target_mb := target; min_quality := 85; overwrite := true |}.

(** The world in which the search for [photos/a.jpg] ends when the target
    is two bytes. *)
Definition failed_search_world : world :=
  (jpeg_search steady_codec
     (with_format (with_format photo None) (format photo)) two_bytes 85 100
     None (transposed original large_world)).2.

(** * The rest of the program *)

(** ** The directory scan and [cli], lines 111-149 *)

(** [str.lower] on the ASCII letters.  No character outside ASCII has a
    lower case among the letters of [.jpg], [.jpeg] and [.png], so for the
    membership test of line 129 the bytes outside ASCII may stay as they
    are. *)
Definition lower_char (c : ascii) : ascii :=
  let n := nat_of_ascii c in
  if (65 <=? n)%nat && (n <=? 90)%nat then ascii_of_nat (n + 32) else c.

Fixpoint lower (s : string) : string :=
  match s with
  | EmptyString => EmptyString
  | String c r => String (lower_char c) (lower r)
  end.

(** [p.suffix.lower() in {".jpg", ".jpeg", ".png"}] *)
Definition wanted (p : Path) : bool :=
  bool_decide (lower (suffix p) ∈ [".jpg"; ".jpeg"; ".png"]).

(** [p.is_file()]: the files of the world are its regular files. *)
Definition is_file (p : Path) (w : world) : bool :=
  bool_decide (is_Some (files w !! p)).

(** The directory tree as the operating system shows it: [root.is_dir()]
    and the paths that [root.rglob("*")] yields, all of them below [root],
    in the order of the walk. *)
Record Tree : Type := mkTree {
  is_dir : Path → bool;
  rglob : Path → list Path
}.

(** How the process ends: [cli] returns, [sys.exit(code)], or an exception
    nobody caught. *)
Inductive exit_status : Type :=
| Finished
| SysExit (code : Z)
| Uncaught (msg : string).

Section Cli.

Context (E : Env) (T : Tree).

(** Lines 128-129. *)
Definition scan (root : Path) (w : world) : list Path :=
  List.filter (λ p, wanted p && is_file p w) (rglob T root).

(** [cli] once the command line is parsed into [root] and [args].  The
    console of the world holds the status lines; the banners ("Folder not
    found", "Scanning", "All done") are not recorded. *)
Definition cli (root : Path) (args : Args) (w : world)
    : exit_status * world :=
  if is_dir T root then
    match cli_loop E (scan root w) args w with
    | (Ok _, w') => (Finished, w')
    | (Raise e, w') => (Uncaught e, w')
    end
  else (SysExit 1, w).

End Cli.

(** ** [colour_status], lines 37-49 *)

Inductive colour : Type := green | grey50 | red | yellow.


(** [needle in hay].  Strings are UTF-8 bytes here; UTF-8 is
    self-synchronising, so a well-formed needle occurs among the bytes
    exactly where it occurs among the characters. *)
Fixpoint contains (needle hay : string) : bool :=
  String.prefix needle hay ||
  match hay with
  | EmptyString => false
  | String _ rest => contains needle rest
  end.

(** Lines 39-46. *)
Definition status_colour (label : string) : colour :=
  if contains "✓" label then green
  else if contains "skip" label then grey50
  else if contains "✗" label || contains "error" label then red
  else yellow.











(** [c] is one of the bytes of [s]. *)
Fixpoint occurs (c : ascii) (s : string) : Prop :=
  match s with
  | EmptyString => False
  | String x r => c = x ∨ occurs c r
  end.

Definition is_digit (c : ascii) : Prop :=
  (48 ≤ nat_of_ascii c ≤ 57)%nat.

(** The colours of the labels [process_one] makes itself. *)
Definition own_labels_coloured : Prop :=
  status_colour skip_label = grey50 ∧
  (∀ q min_q, status_colour (jpeg_label true q min_q) = green) ∧
  (∀ q min_q, status_colour (jpeg_label false q min_q) = red) ∧
  status_colour (png_label true) = green ∧
  status_colour (png_label false) = red.

(** ** More vocabulary *)

Section MoreVocabulary.

Context (E : Env).

(** What a successful [compress_jpeg] guarantees whatever the encoder
    does: the quality is in the range, its encoding is within the target,
    is the content of the output file and has the size returned, and the
    next quality up did not fit, unless the quality is the top of the
    range. *)
Definition local_maximum (img : image) (out : Path) (target : pyfloat)
    (min_q max_q : Z) (q : Z) (mb : Q) (w' : world) : Prop :=
  min_q ≤ q ≤ max_q ∧
  (∃ buf, probe E img q = Ok buf ∧ files w' !! out = Some buf ∧
          mb = size_mb buf) ∧
  float_le mb target = true ∧
  (q = max_q ∨ fits E img target (q + 1) = false).

(** The cost of the search: the encoder calls it logs, and nothing else,
    number [n] with [2^n ≤ 2 * (hi - lo + 1)] unless there is none; at most
    seven for a range within [[1, 100]]. *)
Definition logarithmic_cost (img : image) (target : pyfloat) (lo hi : Z)
    (best : option (list Byte.byte * Z)) (w : world) : Prop :=
  ∃ qs, log (jpeg_search E img target lo hi best w).2
          = log w ++ map (probe_event E img) qs ∧
        (qs = [] ∨ 2 ^ Z.of_nat (length qs) ≤ 2 * (hi - lo + 1)) ∧
        (1 ≤ lo → hi ≤ 100 → (length qs ≤ 7)%nat).

(** A run over the files [fl] changes no file but the output paths of the
    files of [fl], and removes none. *)
Definition run_frame (fl : list Path) (args : Args) (w : world) : Prop :=
  let w' := (cli_loop E fl args w).2 in
  (∀ p, (∀ f, f ∈ fl → output_path f args ≠ Ok p) →
        files w' !! p = files w !! p) ∧
  (∀ p, is_Some (files w !! p) → is_Some (files w' !! p)).


End MoreVocabulary.

(** A codec that decodes to a bitmap. *)
Definition bitmap : image :=
  {| format := Some "BMP"; exif := ∅; icc_profile := None; pixels := [] |}.

Definition bmp_codec : Env :=
  {| image_decode := λ _, Ok bitmap;
     transpose := λ img, Ok (with_format img None);
     tobytes := λ _, [];
     jpeg_encode := λ _ q _ _ _, Ok (blob (q - 80));
     png_encode := λ _ _ _, Saved (blob 30);
     write_fault := λ _ _, None;
     not_found := λ p, "[Errno 2] No such file or directory: " +:+ name p |}.

(** A folder [photos] in which the walk finds [a.jpg] and [notes.txt]. *)
Definition photos : Path := {| parent := []; name := "photos" |}.

Definition notes : Path := {| parent := ["photos"]; name := "notes.txt" |}.

Definition photos_tree : Tree :=
  {| is_dir := λ p, bool_decide (p = photos);
     rglob := λ p, if bool_decide (p = photos) then [original; notes] else [] |}.

(** * Properties *)

(** ** Running the monad *)

Lemma bind_run {A B : Type} (m : M A) (f : A → M B) (w : world) :
  (m ≫= f) w = match m w with
               | (Ok a, w') => f a w'
               | (Raise e, w') => (Raise e, w')
               end.
Proof. reflexivity. Qed.

Lemma record_event_run (ev : event) (w : world) :
  record_event ev w = (Ok tt, add_event ev w).
Proof. reflexivity. Qed.

Section Search.

Context (E : Env).

Lemma strip_orientation_idem (e : gmap Z exif_value) :
  strip_orientation E (strip_orientation E e).1 = strip_orientation E e.
Proof.
  unfold strip_orientation; simpl.
  destruct (e !! ORIENT) eqn:He; simpl.
  - by rewrite lookup_insert_eq, insert_insert_eq.
  - by rewrite He.
Qed.

Lemma normalized_idem (img : image) :
  normalized E (normalized E img) = normalized E img.
Proof.
  unfold normalized, with_exif; cbn [exif format icc_profile pixels].
  by rewrite strip_orientation_idem.
Qed.

Lemma exif_bytes_normalized (img : image) :
  exif_bytes E (normalized E img) = exif_bytes E img.
Proof.
  unfold exif_bytes, normalized, with_exif; cbn [exif].
  by rewrite strip_orientation_idem.
Qed.

Lemma probe_normalized (img : image) (q : Z) :
  probe E (normalized E img) q = probe E img q.
Proof.
  unfold probe. by rewrite normalized_idem, exif_bytes_normalized.
Qed.

Lemma fits_normalized (img : image) (target : pyfloat) (q : Z) :
  fits E (normalized E img) target q = fits E img target q.
Proof. unfold fits. by rewrite probe_normalized. Qed.

Lemma probe_event_normalized (img : image) (q : Z) :
  probe_event E (normalized E img) q = probe_event E img q.
Proof.
  unfold probe_event. by rewrite normalized_idem, exif_bytes_normalized.
Qed.

Lemma midpoint_bounds (lo hi : Z) : lo ≤ hi → lo ≤ (lo + hi) / 2 ≤ hi.
Proof.
  intros H; split;
    [apply Z.div_le_lower_bound | apply Z.div_le_upper_bound]; lia.
Qed.

(** One round of the loop, as the source writes it. *)
Lemma jpeg_search_round img target lo hi best w :
  jpeg_search E img target lo hi best w =
  if decide (lo ≤ hi) then
    let q := (lo + hi) / 2 in
    let w' := add_event (probe_event E img q) w in
    match probe E img q with
    | Raise e => (Raise e, w')
    | Ok buf =>
        if float_le (size_mb buf) target
        then jpeg_search E (normalized E img) target (q + 1) hi
                         (Some (buf, q)) w'
        else jpeg_search E (normalized E img) target lo (q - 1) best w'
    end
  else (Ok best, w).
Proof.
  rewrite jpeg_search_equation_1.
  destruct (decide (lo ≤ hi)); reflexivity.
Qed.

(** Induction on the width of the interval still to be searched. *)
Lemma width_ind (P : Z → Z → Prop) :
  (∀ lo hi,
      (∀ lo' hi',
          (Z.to_nat (hi' - lo' + 1) < Z.to_nat (hi - lo + 1))%nat →
          P lo' hi') →
      P lo hi) →
  ∀ lo hi, P lo hi.
Proof.
  intros step lo hi.
  remember (Z.to_nat (hi - lo + 1)) as n eqn:Hn.
  revert lo hi Hn.
  induction n as [n IH] using lt_wf_ind; intros lo hi ->.
  apply step; intros lo' hi' Hlt. by eapply IH.
Qed.

(** The search only calls the encoder: it leaves files and console
    alone, and appends one [probe_event] per round, each at a quality of
    the interval, and no more of them than the interval has values. *)
Lemma jpeg_search_log img target lo hi best w :
  let w' := (jpeg_search E img target lo hi best w).2 in
  files w' = files w ∧ console w' = console w ∧
  ∃ qs, log w' = log w ++ map (probe_event E img) qs ∧
        Forall (λ q, lo ≤ q ≤ hi) qs ∧
        (length qs ≤ Z.to_nat (hi - lo + 1))%nat.
Proof.
  revert img best w. pattern lo, hi. apply width_ind; clear lo hi.
  intros lo hi IH img best w. cbv zeta.
  rewrite jpeg_search_round.
  destruct (decide (lo ≤ hi)) as [Hle|Hgt]; cbn [snd].
  2:{ split_and!; [done..|]. exists []. rewrite app_nil_r.
      split_and!; [done|constructor|simpl; lia]. }
  pose proof (midpoint_bounds lo hi Hle) as Hq.
  set (q := (lo + hi) / 2) in *. cbv zeta.
  set (w1 := add_event (probe_event E img q) w).
  set (Post := λ w' : world,
         files w' = files w ∧ console w' = console w ∧
         ∃ qs, log w' = log w ++ map (probe_event E img) qs ∧
               Forall (λ q, lo ≤ q ≤ hi) qs ∧
               (length qs ≤ Z.to_nat (hi - lo + 1))%nat).
  assert (Hone : Post w1).
  { split_and!; [done..|]. exists [q].
    split_and!; [done|constructor; [lia|constructor]|simpl; lia]. }
  assert (Hrec : ∀ lo' hi' best',
            lo ≤ lo' → hi' ≤ hi → hi' - lo' < hi - lo →
            Post (jpeg_search E (normalized E img) target lo' hi' best' w1).2).
  { intros lo' hi' best' Hlo Hhi Hw.
    destruct (IH lo' hi' ltac:(lia) (normalized E img) best' w1)
      as (Hf & Hc & qs & Hl & Hqs & Hlen).
    split_and!; [by rewrite Hf|by rewrite Hc|].
    exists (q :: qs). split_and!.
    - rewrite Hl. unfold w1, add_event; cbn [log map].
      rewrite <- app_assoc. cbn [app]. f_equal. f_equal.
      apply map_ext; intros; apply probe_event_normalized.
    - constructor; [lia|].
      eapply Forall_impl; [exact Hqs|]. cbv beta. intros; lia.
    - cbn [length]. lia. }
  change (Post (match probe E img q with
                | Ok buf =>
                    if float_le (size_mb buf) target
                    then jpeg_search E (normalized E img) target (q + 1) hi
                           (Some (buf, q)) w1
                    else jpeg_search E (normalized E img) target lo (q - 1)
                           best w1
                | Raise e => (Raise e, w1)
                end).2).
  destruct (probe E img q) as [buf|e]; [|exact Hone].
  destruct (float_le (size_mb buf) target); apply Hrec; lia.
Qed.

(** What the search returns.  Either no round met the target, the
    [best] it started from comes back and the lowest quality of the
    interval, probed last, did not fit; or it returns a quality [q] of
    the interval together with its encoding, which fits, and the next
    quality up was probed and did not fit, unless [q] is the top of the
    interval. *)
Lemma jpeg_search_result img target lo hi best w b w' :
  jpeg_search E img target lo hi best w = (Ok b, w') →
  (b = best ∧ (lo ≤ hi → fits E img target lo = false)) ∨
  (∃ buf q, b = Some (buf, q) ∧ lo ≤ q ≤ hi ∧ probe E img q = Ok buf ∧
            float_le (size_mb buf) target = true ∧
            (q = hi ∨ fits E img target (q + 1) = false)).
Proof.
  revert img best w b w'. pattern lo, hi. apply width_ind; clear lo hi.
  intros lo hi IH img best w b w'.
  rewrite jpeg_search_round.
  destruct (decide (lo ≤ hi)) as [Hle|Hgt].
  2:{ intros [= <- <-]. left. split; [done|lia]. }
  pose proof (midpoint_bounds lo hi Hle) as Hq.
  set (q := (lo + hi) / 2) in *. cbv zeta.
  destruct (probe E img q) as [buf|e] eqn:Hprobe; [|done].
  destruct (float_le (size_mb buf) target) eqn:Hfit; intros Hrun.
  - apply IH in Hrun; [|lia]. right.
    destruct Hrun as [[-> Hlo]|(buf' & q' & -> & Hq' & Hp & Hf & Hnext)].
    + exists buf, q. split_and!; [done|lia|lia|done|done|].
      destruct (decide (q = hi)) as [|Hne]; [by left|right].
      rewrite <- fits_normalized. apply Hlo. lia.
    + exists buf', q'. rewrite probe_normalized in Hp.
      rewrite fits_normalized in Hnext.
      split_and!; [done|lia|lia|done|done|done].
  - apply IH in Hrun; [|lia].
    assert (Hq_no : fits E img target q = false)
      by (unfold fits; by rewrite Hprobe).
    destruct Hrun as [[-> Hlo]|(buf' & q' & -> & Hq' & Hp & Hf & Hnext)].
    + left. split; [done|]. intros _.
      destruct (decide (lo = q)) as [Heq|Hne]; [by rewrite Heq|].
      rewrite <- fits_normalized. apply Hlo. lia.
    + right. exists buf', q'. rewrite probe_normalized in Hp.
      rewrite fits_normalized in Hnext.
      split_and!; [done|lia|lia|done|done|].
      right. destruct Hnext as [->|Hnext]; [|done].
      by replace (q - 1 + 1) with q by lia.
Qed.

(** The search raises only what the encoder raised at a quality of the
    interval. *)
Lemma jpeg_search_raise img target lo hi best w e w' :
  jpeg_search E img target lo hi best w = (Raise e, w') →
  ∃ q, lo ≤ q ≤ hi ∧ probe E img q = Raise e.
Proof.
  revert img best w e w'. pattern lo, hi. apply width_ind; clear lo hi.
  intros lo hi IH img best w e w'.
  rewrite jpeg_search_round.
  destruct (decide (lo ≤ hi)) as [Hle|Hgt]; [|done].
  pose proof (midpoint_bounds lo hi Hle) as Hq.
  set (q := (lo + hi) / 2) in *. cbv zeta.
  destruct (probe E img q) as [buf|e0] eqn:Hprobe.
  - destruct (float_le (size_mb buf) target); intros Hrun;
      apply IH in Hrun; try lia;
      destruct Hrun as (q' & Hq' & Hp); rewrite probe_normalized in Hp;
      exists q'; (split; [lia|done]).
  - intros [= <- _]. by exists q.
Qed.

End Search.

(** ** [compress_jpeg] *)

Section CompressJPEG.

Context (E : Env).

(** [compress_jpeg] is the search followed, when it found something, by
    the write of the best encoding and the stat of the written file. *)
Lemma compress_jpeg_run img out_path target min_q max_q w :
  compress_jpeg E img out_path target min_q max_q w =
  match jpeg_search E img target min_q max_q None w with
  | (Raise e, w1) => (Raise e, w1)
  | (Ok None, w1) => (Ok (false, None, None), w1)
  | (Ok (Some (buf, q)), w1) =>
      let w2 := add_event (EvWrite out_path buf) w1 in
      match write_fault E out_path buf with
      | None => (Ok (true, Some q, Some (size_mb buf)),
                 set_files (<[out_path := buf]> (files w2)) w2)
      | Some (msg, None) => (Raise msg, w2)
      | Some (msg, Some r) =>
          (Raise msg, set_files (<[out_path := r]> (files w2)) w2)
      end
  end.
Proof.
  unfold compress_jpeg. rewrite bind_run.
  destruct (jpeg_search E img target min_q max_q None w) as [[[[buf q]|]|e] w1];
    [|reflexivity..].
  unfold write_bytes. rewrite !bind_run, record_event_run. cbv zeta.
  unfold store_written.
  destruct (write_fault E out_path buf) as [[msg [r|]]|]; [reflexivity..|].
  unfold file_size_mb. rewrite !bind_run. unfold st_size, set_files.
  cbn [files]. by rewrite lookup_insert_eq.
Qed.

(** The scan returns the highest quality of the interval that fits. *)
Lemma scan_down_spec img target n hi q :
  scan_down E img target n hi = Some q ↔
  hi - Z.of_nat n < q ≤ hi ∧ fits E img target q = true ∧
  ∀ q', q < q' ≤ hi → fits E img target q' = false.
Proof.
  revert hi. induction n as [|n IH]; intros hi; cbn [scan_down].
  { split; [done|]. intros ([? ?] & _). lia. }
  destruct (fits E img target hi) eqn:Hhi.
  - split.
    + intros [= <-]. split_and!; [lia|lia|done|]. intros q' Hq'. lia.
    + intros (Hq & Hfit & Habove).
      destruct (decide (q = hi)) as [->|Hne]; [done|].
      rewrite Habove in Hhi; [done|lia].
  - rewrite IH. split.
    + intros (Hq & Hfit & Habove). split_and!; [lia|lia|done|].
      intros q' Hq'. destruct (decide (q' = hi)) as [->|Hne]; [done|].
      apply Habove. lia.
    + intros (Hq & Hfit & Habove).
      assert (q ≠ hi) by (intros ->; congruence).
      split_and!; [lia|lia|done|]. intros q' Hq'. apply Habove. lia.
Qed.

Lemma brute_force_max_spec img target lo hi q :
  brute_force_max E img target lo hi = Some q ↔
  lo ≤ q ∧ q ≤ hi ∧ fits E img target q = true ∧
  ∀ q', q < q' ≤ hi → fits E img target q' = false.
Proof.
  unfold brute_force_max. rewrite scan_down_spec.
  split; intros (H1 & H2 & H3).
  - destruct H1. split_and!; [lia|lia|done|done].
  - destruct H3 as [H3 H4]. split_and!; [lia|lia|done|done].
Qed.

(** C7.  The binary search over the JPEG quality terminates for every
    [lo ≤ hi]: a round probes the midpoint [(lo + hi) / 2] (rounded down),
    which lies in [[lo, hi]], and goes on with [[mid + 1, hi]] or with
    [[lo, mid - 1]], a strictly narrower interval; the loop ends on an
    empty interval; in all the encoder is called at most [hi - lo + 1]
    times, each time at a quality of [[lo, hi]]. *)
Theorem jpeg_search_terminates img target lo hi best w :
  lo ≤ hi → search_terminates E img target lo hi best w.
Proof.
  intros Hle. unfold search_terminates. cbv zeta.
  pose proof (midpoint_bounds lo hi Hle) as Hmid.
  split_and!; try lia.
  - rewrite jpeg_search_round at 1.
    destruct (decide (lo ≤ hi)); [reflexivity|lia].
  - intros img' lo' hi' best' w' Hempty. rewrite jpeg_search_round.
    destruct (decide (lo' ≤ hi')); [lia|reflexivity].
  - apply jpeg_search_log.
Qed.

(** C1, amended.  When meeting the target is monotone in the quality over
    [[min_q, max_q]] and [compress_jpeg] returns success, the chosen
    quality lies in [[min_q, max_q]], the file written holds the encoding
    at that quality, whose size is the one reported and is at most the
    target, and no higher quality of the interval has an encoding within
    the target: the search returns the brute-force maximum. *)
Theorem compress_jpeg_picks_highest_fit img out_path target min_q max_q w :
  fit_monotone E img target min_q max_q →
  picks_highest_fit E img out_path target min_q max_q w.
Proof.
  intros Hmono q mb w'. rewrite compress_jpeg_run.
  destruct (jpeg_search E img target min_q max_q None w)
    as [[[[buf q0]|]|e] w1] eqn:Hrun; [|done..].
  cbv zeta.
  destruct (write_fault E out_path buf) as [[msg [r|]]|]; [done..|].
  intros [= -> <- <-].
  apply jpeg_search_result in Hrun.
  destruct Hrun as [[[=] _]|(buf' & q' & [= <- <-] & Hq & Hp & Hf & Hnext)].
  assert (Hmax : ∀ q', min_q ≤ q' ≤ max_q →
                       fits E img target q' = true → q' ≤ q).
  { intros q' Hq' Hfit.
    destruct Hnext as [->|Hnext]; [lia|].
    destruct (decide (q' ≤ q)) as [|Hgt]; [done|].
    rewrite (Hmono (q + 1) q') in Hnext; [done|lia|lia|lia|done]. }
  split_and!; [lia|lia| |done|done|].
  - exists buf. split_and!; [done| |done].
    unfold set_files; cbn [files]. by rewrite lookup_insert_eq.
  - apply brute_force_max_spec. split_and!; [lia|lia| |].
    + unfold fits. by rewrite Hp.
    + intros q' Hq'. destruct (fits E img target q') eqn:Hfit; [|done].
      apply Hmax in Hfit; lia.
Qed.

End CompressJPEG.

(** ** Frames *)

Section Frames.

Context (E : Env).

Lemma touches_only_refl out w : touches_only out w w.
Proof. by split_and!. Qed.

Lemma touches_only_trans out w1 w2 w3 :
  touches_only out w1 w2 → touches_only out w2 w3 → touches_only out w1 w3.
Proof.
  intros (Hf1 & Hd1 & Hc1) (Hf2 & Hd2 & Hc2). split_and!.
  - intros p Hp. by rewrite Hf2, Hf1.
  - intros p Hp. by apply Hd2, Hd1.
  - by rewrite Hc2.
Qed.

Lemma touches_only_add_event out ev w : touches_only out w (add_event ev w).
Proof. by split_and!. Qed.

Lemma touches_only_insert out data w :
  touches_only (Ok out) w (set_files (<[out := data]> (files w)) w).
Proof.
  split_and!; [| |done]; intros p Hp; unfold set_files; cbn [files].
  - rewrite lookup_insert_ne; [done|]. intros ->. by apply Hp.
  - destruct (decide (out = p)) as [->|Hne].
    + by rewrite lookup_insert_eq.
    + by rewrite lookup_insert_ne.
Qed.

Lemma touches_only_search out img target lo hi best w :
  touches_only out w (jpeg_search E img target lo hi best w).2.
Proof.
  destruct (jpeg_search_log E img target lo hi best w) as (Hf & Hc & _).
  split_and!; [| |done]; intros p Hp; by rewrite Hf.
Qed.

End Frames.

(** ** [compress_png] and [process_one], unfolded *)

Section ProcessOne.

Context (E : Env).

Lemma compress_png_run img out_path target w :
  compress_png E img out_path target w =
  let w1 := add_event (EvSavePNG out_path true 9) w in
  match png_encode E img true 9 with
  | Saved data =>
      (Ok (float_le (size_mb data) target, size_mb data),
       set_files (<[out_path := data]> (files w1)) w1)
  | SaveFailed msg residue =>
      (Raise msg,
       match files w1 !! out_path, residue with
       | Some _, Some r => set_files (<[out_path := r]> (files w1)) w1
       | _, _ => w1
       end)
  end.
Proof.
  unfold compress_png, save_png. rewrite !bind_run, record_event_run.
  cbv zeta. unfold store_saved.
  destruct (png_encode E img true 9) as [data|msg residue]; [|reflexivity].
  unfold file_size_mb. rewrite !bind_run. unfold st_size, set_files.
  cbn [files]. by rewrite lookup_insert_eq.
Qed.

(** The [try] body, one collaborator call after the other. *)
Lemma try_body_run path args orig_mb w :
  try_body E path args orig_mb w =
  match files w !! path with
  | None => (Raise (not_found E path), opened path w)
  | Some data =>
  match image_decode E data with
  | Raise e => (Raise e, opened path w)
  | Ok d =>
  match transpose E d with
  | Raise e => (Raise e, transposed path w)
  | Ok t =>
  match output_path path args with
  | Raise e => (Raise e, transposed path w)
  | Ok out =>
      let img := with_format t (format d) in
      if bool_decide (format d = Some "JPEG") then
        match compress_jpeg E img out (target_mb args) (min_quality args) 100
                (transposed path w) with
        | (Raise e, w') => (Raise e, w')
        | (Ok (ok, q, new_mb), w') =>
            (Ok (jpeg_label ok q (min_quality args), py_or new_mb orig_mb), w')
        end
      else if bool_decide (format d = Some "PNG") then
        match compress_png E img out (target_mb args) (transposed path w) with
        | (Raise e, w') => (Raise e, w')
        | (Ok (ok, new_mb), w') => (Ok (png_label ok, new_mb), w')
        end
      else (Ok (str_opt id (format d) +:+ " unsupported", orig_mb),
            transposed path w)
  end end end end.
Proof.
  unfold try_body, image_open, exif_transpose, read_bytes, lift, record_event,
    transposed, opened, add_event, mbind, M_bind, mret, M_ret.
  cbn [files log console].
  destruct (files w !! path) as [data|]; [|reflexivity].
  destruct (image_decode E data) as [d|e]; [|reflexivity].
  destruct (transpose E d) as [t|e]; [|reflexivity].
  destruct (output_path path args) as [out|e]; [|reflexivity].
  cbv zeta.
  destruct (bool_decide (format d = Some "JPEG")).
  - destruct (compress_jpeg E _ out _ _ 100 _) as [[[[ok q] new_mb]|e] w'];
      reflexivity.
  - destruct (bool_decide (format d = Some "PNG")); [|reflexivity].
    destruct (compress_png E _ out _ _) as [[[ok new_mb]|e] w']; reflexivity.
Qed.

Lemma large_file_not_skipped (data : list Byte.byte) :
  Qle_bool (size_mb data) 19 = false ↔ skip_threshold < Z.of_nat (length data).
Proof.
  rewrite <- not_true_iff_false, Qle_bool_iff.
  unfold Qle, size_mb, skip_threshold, MiB; cbn [Qnum Qden inject_Z].
  lia.
Qed.

Lemma small_file_skipped (data : list Byte.byte) :
  Qle_bool (size_mb data) 19 = true ↔ Z.of_nat (length data) ≤ skip_threshold.
Proof.
  rewrite Qle_bool_iff.
  unfold Qle, size_mb, skip_threshold, MiB; cbn [Qnum Qden inject_Z].
  lia.
Qed.

(** [process_one] on a file that exists: the size gate, then the [try]
    statement with its handler. *)
Lemma process_one_run path args w data :
  files w !! path = Some data →
  process_one E path args w =
  if Qle_bool (size_mb data) 19 then (Ok (skip_label, size_mb data), w)
  else match try_body E path args (size_mb data) w with
       | (Ok x, w') => (Ok x, w')
       | (Raise e, w') => (Ok ("error: " +:+ e, size_mb data), w')
       end.
Proof.
  intros Hfile. unfold process_one, file_size_mb.
  rewrite !bind_run. unfold st_size at 1. rewrite Hfile.
  change (mret (M := M) (Qmake (Z.of_nat (length data)) MiB) w)
    with (Ok (size_mb data), w).
  cbv beta iota.
  destruct (Qle_bool (size_mb data) 19); reflexivity.
Qed.

(** C4.  A file of at most 19 MiB (19 * 1024 * 1024 bytes) is skipped,
    whatever the target, the minimum quality and the overwrite flag are:
    [process_one] returns the skip label with the file's own size and
    leaves the world as it was, so nothing was decoded, encoded or
    written. *)
Theorem small_file_is_skipped path args w data :
  files w !! path = Some data →
  Z.of_nat (length data) ≤ skip_threshold →
  process_one E path args w = (Ok (skip_label, size_mb data), w).
Proof.
  intros Hfile Hsmall. rewrite (process_one_run _ _ _ data Hfile).
  apply small_file_skipped in Hsmall. by rewrite Hsmall.
Qed.

(** *** What one file can change *)

Lemma compress_jpeg_frame img out target min_q max_q w :
  touches_only (Ok out) w (compress_jpeg E img out target min_q max_q w).2.
Proof.
  rewrite compress_jpeg_run.
  pose proof (touches_only_search E (Ok out) img target min_q max_q None w)
    as Hsearch.
  destruct (jpeg_search E img target min_q max_q None w)
    as [[[[buf q]|]|e] w1]; cbn [snd] in *; [|done..].
  cbv zeta.
  assert (Hw2 : touches_only (Ok out) w (add_event (EvWrite out buf) w1))
    by (eapply touches_only_trans; [done|apply touches_only_add_event]).
  destruct (write_fault E out buf) as [[msg [r|]]|]; cbn [snd]; [|done|];
    (eapply touches_only_trans; [exact Hw2|apply touches_only_insert]).
Qed.

Lemma compress_png_frame img out target w :
  touches_only (Ok out) w (compress_png E img out target w).2.
Proof.
  rewrite compress_png_run. cbv zeta.
  assert (Hw1 : touches_only (Ok out) w (add_event (EvSavePNG out true 9) w))
    by apply touches_only_add_event.
  destruct (png_encode E img true 9) as [data|msg residue]; cbn [snd].
  - eapply touches_only_trans; [exact Hw1|apply touches_only_insert].
  - destruct (files _ !! out), residue; [|done..].
    eapply touches_only_trans; [exact Hw1|apply touches_only_insert].
Qed.

Lemma try_body_frame path args orig_mb w :
  touches_only (output_path path args) w (try_body E path args orig_mb w).2.
Proof.
  rewrite try_body_run.
  assert (Ho : touches_only (output_path path args) w (opened path w))
    by apply touches_only_add_event.
  assert (Ht : touches_only (output_path path args) w (transposed path w))
    by (eapply touches_only_trans; [exact Ho|apply touches_only_add_event]).
  destruct (files w !! path) as [data|]; [|done].
  destruct (image_decode E data) as [d|e]; [|done].
  destruct (transpose E d) as [t|e]; [|done].
  destruct (output_path path args) as [out|e]; [|done].
  cbv zeta.
  destruct (bool_decide (format d = Some "JPEG")).
  - pose proof (compress_jpeg_frame (with_format t (format d)) out
                  (target_mb args) (min_quality args) 100 (transposed path w))
      as Hc.
    destruct (compress_jpeg E _ out _ _ 100 _) as [[[[ok q] new_mb]|e] w'];
      cbn [snd] in *; by eapply touches_only_trans.
  - destruct (bool_decide (format d = Some "PNG")); [|done].
    pose proof (compress_png_frame (with_format t (format d)) out
                  (target_mb args) (transposed path w)) as Hc.
    destruct (compress_png E _ out _ _) as [[[ok new_mb]|e] w'];
      cbn [snd] in *; by eapply touches_only_trans.
Qed.

Lemma process_one_frame path args w :
  touches_only (output_path path args) w (process_one E path args w).2.
Proof.
  destruct (files w !! path) as [data|] eqn:Hfile.
  - rewrite (process_one_run _ _ _ data Hfile).
    destruct (Qle_bool (size_mb data) 19); [apply touches_only_refl|].
    pose proof (try_body_frame path args (size_mb data) w) as Hb.
    by destruct (try_body E path args (size_mb data) w) as [[x|e] w'].
  - unfold process_one, file_size_mb. rewrite !bind_run.
    unfold st_size at 1. rewrite Hfile. apply touches_only_refl.
Qed.

(** *** What one file logs *)

Lemma compress_jpeg_events img out target min_q max_q w :
  ∃ evs, log (compress_jpeg E img out target min_q max_q w).2 = log w ++ evs ∧
         Forall (λ ev, (∃ q, min_q ≤ q ≤ max_q ∧ ev = probe_event E img q) ∨
                       (∃ buf, ev = EvWrite out buf)) evs.
Proof.
  rewrite compress_jpeg_run.
  destruct (jpeg_search_log E img target min_q max_q None w)
    as (_ & _ & qs & Hlog & Hqs & _).
  assert (Hprobes : Forall (λ ev, (∃ q, min_q ≤ q ≤ max_q ∧
                                        ev = probe_event E img q) ∨
                                  (∃ buf, ev = EvWrite out buf))
                           (map (probe_event E img) qs)).
  { apply Forall_map. eapply Forall_impl; [exact Hqs|].
    intros q Hq. left. by exists q. }
  destruct (jpeg_search E img target min_q max_q None w)
    as [[[[buf q]|]|e] w1]; cbn [snd] in *; [|by eexists..].
  cbv zeta.
  exists (map (probe_event E img) qs ++ [EvWrite out buf]). split.
  - destruct (write_fault E out buf) as [[msg [r|]]|];
      cbn [snd set_files add_event log]; by rewrite Hlog, app_assoc.
  - apply Forall_app. split; [done|].
    constructor; [|constructor]. right. by exists buf.
Qed.

Lemma compress_png_events img out target w :
  log (compress_png E img out target w).2 = log w ++ [EvSavePNG out true 9].
Proof.
  rewrite compress_png_run. cbv zeta.
  destruct (png_encode E img true 9) as [data|msg residue]; [done|].
  cbn [snd]. by destruct (files _ !! out), residue.
Qed.

Lemma try_body_events path args orig_mb w :
  ∃ evs, log (try_body E path args orig_mb w).2 = log w ++ evs ∧
         Forall (file_event E path args w) evs.
Proof.
  rewrite try_body_run.
  assert (Hopen : file_event E path args w (EvOpen path)) by by left.
  assert (Htr : file_event E path args w EvTranspose) by (right; by left).
  destruct (files w !! path) as [data|] eqn:Hfile.
  2:{ exists [EvOpen path]. split; [done|by constructor]. }
  destruct (image_decode E data) as [d|e] eqn:Hdec.
  2:{ exists [EvOpen path]. split; [done|by constructor]. }
  assert (Htlog : log (transposed path w) = log w ++ [EvOpen path; EvTranspose]).
  { unfold transposed, opened, add_event; cbn [log].
    by rewrite <- app_assoc. }
  assert (Htwo : Forall (file_event E path args w) [EvOpen path; EvTranspose])
    by (by repeat constructor).
  destruct (transpose E d) as [t|e] eqn:Htrans; [|by eexists].
  destruct (output_path path args) as [out|e] eqn:Hout; [|by eexists].
  cbv zeta.
  destruct (bool_decide (format d = Some "JPEG")) eqn:Hjpeg.
  - apply bool_decide_eq_true in Hjpeg.
    destruct (compress_jpeg_events (with_format t (format d)) out
                (target_mb args) (min_quality args) 100 (transposed path w))
      as (evs & Hlog & Hevs).
    exists ([EvOpen path; EvTranspose] ++ evs). split.
    + destruct (compress_jpeg E _ out _ _ 100 _) as [[[[ok q] new_mb]|e] w'];
        cbn [snd] in *; by rewrite Hlog, Htlog, <- app_assoc.
    + apply Forall_app. split; [done|].
      eapply Forall_impl; [exact Hevs|].
      intros ev [(q & Hq & ->)|(buf & ->)]; right; right.
      * left. by exists data, d, t, q.
      * right. exists out. split; [done|]. right. by exists buf.
  - destruct (bool_decide (format d = Some "PNG")); [|by eexists].
    pose proof (compress_png_events (with_format t (format d)) out
                  (target_mb args) (transposed path w)) as Hlog.
    exists ([EvOpen path; EvTranspose] ++ [EvSavePNG out true 9]). split.
    + destruct (compress_png E _ out _ _) as [[[ok new_mb]|e] w'];
        cbn [snd] in *; by rewrite Hlog, Htlog, <- app_assoc.
    + apply Forall_app. split; [done|].
      constructor; [|constructor]. right; right; right.
      exists out. split; [done|by left].
Qed.

Lemma process_one_events path args w :
  ∃ evs, log (process_one E path args w).2 = log w ++ evs ∧
         Forall (file_event E path args w) evs.
Proof.
  destruct (files w !! path) as [data|] eqn:Hfile.
  - rewrite (process_one_run _ _ _ data Hfile).
    destruct (Qle_bool (size_mb data) 19).
    { exists []. by rewrite app_nil_r. }
    destruct (try_body_events path args (size_mb data) w) as (evs & Hlog & Hevs).
    exists evs. split; [|done].
    by destruct (try_body E path args (size_mb data) w) as [[x|e] w'].
  - unfold process_one, file_size_mb. rewrite !bind_run.
    unfold st_size at 1. rewrite Hfile. exists []. by rewrite app_nil_r.
Qed.

End ProcessOne.

(** ** pathlib *)

Lemma append_cons (c : ascii) (a b : string) :
  String c a +:+ b = String c (a +:+ b).
Proof. reflexivity. Qed.

Lemma append_empty_r (a : string) : a +:+ EmptyString = a.
Proof. induction a as [|c a IH]; [done|]. by rewrite append_cons, IH. Qed.

Lemma length_append (a b : string) :
  String.length (a +:+ b) = (String.length a + String.length b)%nat.
Proof.
  induction a as [|c a IH]; [done|].
  rewrite append_cons. cbn [String.length]. by rewrite IH.
Qed.

Lemma rsplit_dot_app (s a b : string) :
  rsplit_dot s = Some (a, b) → a +:+ b = s.
Proof.
  revert a b. induction s as [|c s IH]; intros a b; cbn [rsplit_dot]; [done|].
  destruct (rsplit_dot s) as [[a' b']|].
  - intros [= <- <-]. rewrite append_cons. f_equal. by apply IH.
  - destruct (Ascii.eqb c "."); [|done]. by intros [= <- <-].
Qed.

Lemma stem_suffix (p : Path) : stem p +:+ suffix p = name p.
Proof.
  unfold stem, suffix.
  destruct (rsplit_dot (name p)) as [[a b]|] eqn:Hsplit.
  - destruct (bool_decide (a ≠ EmptyString) && (1 <? String.length b)%nat).
    + by apply rsplit_dot_app.
    + apply append_empty_r.
  - apply append_empty_r.
Qed.

Lemma sidecar_differs (p out : Path) :
  with_stem p (stem p +:+ "_compressed") = Ok out → out ≠ p.
Proof.
  unfold with_stem, with_name.
  destruct (bool_decide (name p = EmptyString)); [done|].
  intros [= <-] Heq. apply (f_equal name) in Heq. cbn [name] in Heq.
  apply (f_equal String.length) in Heq.
  rewrite <- (stem_suffix p) in Heq.
  rewrite !length_append in Heq. cbn in Heq. lia.
Qed.

(** ** Claims about one file *)

Section FileTheorems.

Context (E : Env).

Lemma strip_orientation_lookup (e : gmap Z exif_value) :
  (strip_orientation E e).1 !! ORIENT = (λ _, ExifInt 1) <$> e !! ORIENT ∧
  ∀ tag, tag ≠ ORIENT → (strip_orientation E e).1 !! tag = e !! tag.
Proof.
  unfold strip_orientation; cbn [fst].
  destruct (e !! ORIENT) eqn:He; cbn [fmap option_fmap option_map].
  - split; [by rewrite lookup_insert_eq|].
    intros tag Hne. by rewrite lookup_insert_ne.
  - by split.
Qed.

(** C6.  Without [--overwrite] the output path is the sibling of the file
    with [_compressed] appended to the stem and the suffix kept, and the
    file's own bytes are never changed; with [--overwrite] the output path
    is the file itself.  Whatever the mode, only the output path is ever
    written. *)
Theorem process_one_output_placement path args w :
  output_placement E path args w.
Proof.
  unfold output_placement. cbv zeta.
  destruct (process_one_frame E path args w) as (Hframe & _ & _).
  split_and!.
  - unfold output_path.
    destruct (overwrite args) eqn:Hov; [done|]. split_and!.
    + intros Hname. unfold with_stem, with_name.
      by rewrite bool_decide_eq_false_2.
    + apply stem_suffix.
    + apply Hframe. unfold output_path. rewrite Hov.
      intros Hout. by apply sidecar_differs in Hout.
  - exact Hframe.
  - destruct (process_one_events E path args w) as (evs & Hlog & Hevs).
    exists evs. split; [done|]. intros ev p Hin Htarget.
    rewrite Forall_forall in Hevs. apply Hevs in Hin.
    destruct Hin as [->|[->|[(data & d & t & q & _ & _ & _ & _ & _ & ->)|
                              (out & Hout & [->|(buf & ->)])]]];
      cbn in Htarget; try done; by injection Htarget as <-.
Qed.

(** C8.  Every JPEG encode made while a file is processed receives the
    EXIF bytes of a dictionary whose orientation is 1 whenever the tag is
    present (the other tags being unchanged), and the image it encodes
    carries the format tag that was read from the decoded image before the
    transposition, whatever tag the transposed image came back with. *)
Theorem jpeg_encodes_carry_upright_exif path args w :
  encodes_carry_upright_exif E path args w.
Proof.
  destruct (process_one_events E path args w) as (evs & Hlog & Hevs).
  exists evs. split; [done|]. intros img q o ex icc Hin.
  rewrite Forall_forall in Hevs. apply Hevs in Hin.
  destruct Hin as [[=]|[[=]|[(data & d & t & q' & Hf & Hd & Ht & Hfmt & _ & Hev)|
                            (out & _ & [[=]|(buf & [=])])]]].
  unfold probe_event in Hev. injection Hev as -> -> -> -> ->.
  exists data, d, t.
  destruct (strip_orientation_lookup (exif (with_format t (format d))))
    as (Horient & Hother).
  split_and!; try done.
Qed.

(** C9.  [compress_png] performs exactly one encode, at the maximum
    lossless effort ([optimize=True], [compress_level=9]), with no search,
    and returns success if and only if the size of the encoding is at most
    the target. *)
Theorem compress_png_single_encode img out target w :
  png_single_encode E img out target w.
Proof.
  unfold png_single_encode. cbv zeta.
  split; [apply compress_png_events|].
  rewrite compress_png_run. cbv zeta.
  destruct (png_encode E img true 9) as [data|msg residue]; cbn [fst snd].
  - split; [|done]. intros ok mb [= <- <-]. exists data.
    split_and!; [done| |done|done|].
    + unfold set_files; cbn [files]. by rewrite lookup_insert_eq.
    + intros t ->. cbn [float_le]. apply Qle_bool_iff.
  - split; [done|]. intros msg' [= <-]. by exists residue.
Qed.

(** *** A large file, format by format *)

Lemma process_one_jpeg path args w data d t out :
  decodes_to E path w data d t "JPEG" →
  output_path path args = Ok out →
  process_one E path args w =
  match compress_jpeg E (with_format t (format d)) out (target_mb args)
          (min_quality args) 100 (transposed path w) with
  | (Raise e, w') => (Ok ("error: " +:+ e, size_mb data), w')
  | (Ok (ok, q, new_mb), w') =>
      (Ok (jpeg_label ok q (min_quality args), py_or new_mb (size_mb data)), w')
  end.
Proof.
  intros (Hfile & Hlarge & Hdec & Hfmt & Htrans) Hout.
  rewrite (process_one_run _ _ _ _ data Hfile).
  apply large_file_not_skipped in Hlarge. rewrite Hlarge.
  rewrite try_body_run, Hfile, Hdec, Htrans, Hout. cbv zeta.
  rewrite bool_decide_eq_true_2 by done.
  by destruct (compress_jpeg E _ out _ _ 100 _) as [[[[ok q] new_mb]|e] w'].
Qed.

Lemma process_one_png path args w data d t out :
  decodes_to E path w data d t "PNG" →
  output_path path args = Ok out →
  process_one E path args w =
  match compress_png E (with_format t (format d)) out (target_mb args)
          (transposed path w) with
  | (Raise e, w') => (Ok ("error: " +:+ e, size_mb data), w')
  | (Ok (ok, new_mb), w') => (Ok (png_label ok, new_mb), w')
  end.
Proof.
  intros (Hfile & Hlarge & Hdec & Hfmt & Htrans) Hout.
  rewrite (process_one_run _ _ _ _ data Hfile).
  apply large_file_not_skipped in Hlarge. rewrite Hlarge.
  rewrite try_body_run, Hfile, Hdec, Htrans, Hout. cbv zeta.
  rewrite bool_decide_eq_false_2 by (rewrite Hfmt; congruence).
  rewrite bool_decide_eq_true_2 by done.
  by destruct (compress_png E _ out _ _) as [[[ok new_mb]|e] w'].
Qed.

Lemma search_finds_nothing img target lo hi best w :
  no_quality_fits E img target lo hi →
  ∃ w', jpeg_search E img target lo hi best w = (Ok best, w').
Proof.
  intros Hnone.
  destruct (jpeg_search E img target lo hi best w) as [[b|e] w'] eqn:Hrun.
  - exists w'. apply jpeg_search_result in Hrun.
    destruct Hrun as [[-> _]|(buf & q & _ & Hq & Hp & Hf & _)]; [done|].
    destruct (Hnone q Hq) as (buf' & Hp' & Hf'). congruence.
  - apply jpeg_search_raise in Hrun. destruct Hrun as (q & Hq & Hp).
    destruct (Hnone q Hq) as (buf' & Hp' & _). congruence.
Qed.

Lemma failed_search_outcome path args w data d t out w1 :
  decodes_to E path w data d t "JPEG" →
  output_path path args = Ok out →
  jpeg_search E (with_format t (format d)) (target_mb args)
              (min_quality args) 100 None (transposed path w) = (Ok None, w1) →
  original_untouched E path args w data d t out w1.
Proof.
  intros Hfile Hout Hrun. unfold original_untouched. cbv zeta.
  pose proof (process_one_jpeg path args w data d t out Hfile Hout) as Hone.
  rewrite compress_jpeg_run, Hrun in Hone. rewrite compress_jpeg_run, Hrun.
  destruct (jpeg_search_log E (with_format t (format d)) (target_mb args)
              (min_quality args) 100 None (transposed path w))
    as (Hfiles & _ & qs & Hlog & _).
  rewrite Hrun in Hfiles, Hlog. cbn [snd] in Hfiles, Hlog.
  destruct Hfile as (Hfile & _).
  split_and!; [done|by exists qs|done|by rewrite Hfiles|done].
Qed.

(** C3.  When the JPEG search ends without a quality that met the target
    ([best_bytes] is still [None]), [compress_jpeg] writes nothing: after
    the transposition the run only calls the encoder, no file changes, and
    the file being processed, which with [--overwrite] is the output path,
    still holds its original bytes. *)
Theorem failed_jpeg_search_writes_nothing path args w data d t out w1 :
  decodes_to E path w data d t "JPEG" →
  output_path path args = Ok out →
  jpeg_search E (with_format t (format d)) (target_mb args)
              (min_quality args) 100 None (transposed path w) = (Ok None, w1) →
  original_untouched E path args w data d t out w1.
Proof. apply failed_search_outcome. Qed.

Lemma no_fit_outcome path args w data d t out :
  decodes_to E path w data d t "JPEG" →
  output_path path args = Ok out →
  no_quality_fits E (with_format t (format d)) (target_mb args)
                  (min_quality args) 100 →
  failure_reported E path args w d t out (size_mb data).
Proof.
  intros Hfile Hout Hnone.
  destruct (search_finds_nothing _ _ _ _ None (transposed path w) Hnone)
    as (w1 & Hrun).
  destruct (failed_search_outcome path args w data d t out w1
              Hfile Hout Hrun) as (Hc & _ & _ & _ & Hone).
  by exists w1.
Qed.

(** C2, amended.  When every quality of [[min_quality, 100]] encodes and
    no encoding is at or under the target, [compress_jpeg] reports failure
    (no quality and no size), and the size reported for the file is the
    size of the original file. *)
Theorem jpeg_failure_reports_original_size path args w data d t out :
  decodes_to E path w data d t "JPEG" →
  output_path path args = Ok out →
  no_quality_fits E (with_format t (format d)) (target_mb args)
                  (min_quality args) 100 →
  failure_reported E path args w d t out (size_mb data).
Proof. apply no_fit_outcome. Qed.

(** C10.  [compress_png] writes its encoding to the output path before it
    looks at the target: the file holds the encoding whether or not it
    fits, and with [--overwrite] a PNG compression that misses the target
    has replaced the original file all the same. *)
Theorem png_written_even_when_too_big path args w data d t encoded :
  decodes_to E path w data d t "PNG" →
  overwrite args = true →
  png_encode E (with_format t (format d)) true 9 = Saved encoded →
  float_le (size_mb encoded) (target_mb args) = false →
  png_replaces_original E path args w d t encoded.
Proof.
  intros Hfile Hov Henc Hbig. unfold png_replaces_original. cbv zeta.
  assert (Hout : output_path path args = Ok path)
    by (unfold output_path; by rewrite Hov).
  split.
  { intros out target w0. rewrite compress_png_run, Henc. cbv zeta.
    unfold set_files; cbn [snd files]. by rewrite lookup_insert_eq. }
  pose proof (process_one_png path args w data d t path Hfile Hout) as Hone.
  pose proof (compress_png_events E (with_format t (format d)) path
                (target_mb args) (transposed path w)) as Hlog.
  rewrite compress_png_run, Henc, Hbig in *. cbv zeta in *.
  eexists. split_and!; [reflexivity|exact Hlog| |exact Hone].
  unfold set_files; cbn [files]. by rewrite lookup_insert_eq.
Qed.

End FileTheorems.

(** ** Claims about a run *)

Section RunTheorems.

Context (E : Env).

Lemma cli_loop_cons p rest args w :
  cli_loop E (p :: rest) args w =
  match process_one E p args w with
  | (Ok (label, mb), w1) => cli_loop E rest args (printed (p, label, mb) w1)
  | (Raise e, w1) => (Raise e, w1)
  end.
Proof.
  cbn [cli_loop]. rewrite bind_run.
  by destruct (process_one E p args w) as [[[label mb]|e] w1].
Qed.

(** [process_one] returns for every file that exists. *)
Lemma process_one_returns path args w :
  is_Some (files w !! path) →
  ∃ label mb w', process_one E path args w = (Ok (label, mb), w').
Proof.
  intros [data Hfile]. rewrite (process_one_run _ _ _ _ data Hfile).
  destruct (Qle_bool (size_mb data) 19); [by eexists _, _, _|].
  destruct (try_body E path args (size_mb data) w) as [[[label mb]|e] w'];
    by eexists _, _, _.
Qed.

Lemma try_body_error_contained path args w data e w1 :
  files w !! path = Some data →
  skip_threshold < Z.of_nat (length data) →
  try_body E path args (size_mb data) w = (Raise e, w1) →
  process_one E path args w = (Ok ("error: " +:+ e, size_mb data), w1).
Proof.
  intros Hfile Hlarge Hbody. rewrite (process_one_run _ _ _ _ data Hfile).
  apply large_file_not_skipped in Hlarge. by rewrite Hlarge, Hbody.
Qed.

Lemma cli_loop_reports fl args w :
  Forall (λ p, is_Some (files w !! p)) fl →
  ∃ lines w',
    cli_loop E fl args w = (Ok tt, w') ∧
    reports E args w fl lines w' ∧
    console w' = console w ++ lines ∧
    map (λ line, line.1.1) lines = fl.
Proof.
  revert w. induction fl as [|p rest IH]; intros w Hfiles.
  { exists [], w. split_and!; [done|constructor|by rewrite app_nil_r|done]. }
  apply Forall_cons in Hfiles as [Hp Hrest].
  destruct (process_one_returns p args w Hp) as (label & mb & w1 & Hone).
  destruct (process_one_frame E p args w) as (_ & Hkeep & Hconsole).
  rewrite Hone in Hkeep, Hconsole. cbn [snd] in Hkeep, Hconsole.
  destruct (IH (printed (p, label, mb) w1)) as (lines & w' & Hrun & Hrep & Hc & Hm).
  { eapply Forall_impl; [exact Hrest|]. intros q Hq. by apply Hkeep. }
  exists ((p, label, mb) :: lines), w'. split_and!.
  - by rewrite cli_loop_cons, Hone.
  - by econstructor.
  - rewrite Hc. cbn [printed console]. by rewrite Hconsole, <- app_assoc.
  - cbn [map fst]. by rewrite Hm.
Qed.

(** The stat of line 80 is outside the [try] statement: for a file that
    is not there [process_one] itself raises. *)
Lemma missing_file_escapes path args w :
  files w !! path = None →
  process_one E path args w = (Raise (not_found E path), w).
Proof.
  intros Hfile. unfold process_one, file_size_mb. rewrite !bind_run.
  unfold st_size at 1. by rewrite Hfile.
Qed.

(** C5.  Whatever is raised while one file is decoded, encoded or written
    is caught at that file: [process_one] returns the label
    [error: <message>] with the size of the original file, the loop goes
    on with the next file, and the run over files that exist ends
    normally with one line per file. *)
Theorem batch_survives_file_errors fl args w :
  Forall (λ p, is_Some (files w !! p)) fl →
  resilient_run E fl args w.
Proof.
  intros Hfiles. split_and!.
  - by apply cli_loop_reports.
  - intros path w0 data e w1. apply try_body_error_contained.
  - intros path w0 data e Hfile Hlarge Hdec.
    apply try_body_error_contained; [done..|].
    by rewrite try_body_run, Hfile, Hdec.
  - intros path w0 data d t out e w1 Hdec Hout Hrun.
    rewrite (process_one_jpeg E path args w0 data d t out Hdec Hout).
    by rewrite compress_jpeg_run, Hrun.
  - intros path w0 data d t out buf q w1 msg residue Hdec Hout Hrun Hfault.
    rewrite (process_one_jpeg E path args w0 data d t out Hdec Hout).
    rewrite compress_jpeg_run, Hrun. cbv zeta. rewrite Hfault.
    by destruct residue.
  - intros path w0 data d t out msg residue Hdec Hout Hfail.
    rewrite (process_one_png E path args w0 data d t out Hdec Hout).
    by rewrite compress_png_run, Hfail.
Qed.

End RunTheorems.

(** ** Examples *)

Lemma large_file_length : Z.of_nat (length large_file) = 19922945.
Proof. exact (proj2_sig large_file_exists). Defined.

Lemma length_blob (n : Z) : Z.of_nat (length (blob n)) = Z.max 0 n.
Proof. unfold blob. rewrite repeat_length. lia. Defined.

Lemma float_le_bytes (data : list Byte.byte) (n : Z) :
  float_le (size_mb data) (Finite (Qmake n MiB)) = (Z.of_nat (length data) <=? n).
Proof.
  unfold float_le, size_mb, Qle_bool, MiB; cbn [Qnum Qden].
  destruct (Z.leb_spec (Z.of_nat (length data)) n);
    [apply Z.leb_le|apply Z.leb_gt]; lia.
Defined.

Lemma large_jpeg_decodes :
  decodes_to steady_codec original large_world large_file photo
             (with_format photo None) "JPEG".
Proof.
  split_and!; [reflexivity| |reflexivity..].
  rewrite large_file_length. unfold skip_threshold. lia.
Defined.

Lemma steady_fits (target q : Z) :
  fits steady_codec (with_format (with_format photo None) (format photo))
       (Finite (Qmake target MiB)) q
  = (Z.max 0 (q - 80) <=? target).
Proof.
  unfold fits, probe, steady_codec; cbn [jpeg_encode].
  by rewrite float_le_bytes, length_blob.
Defined.

Lemma steady_never_fits_two_bytes :
  no_quality_fits steady_codec
    (with_format (with_format photo None) (format photo)) two_bytes 85 100.
Proof.
  intros q Hq. exists (blob (q - 80)). split; [reflexivity|].
  unfold two_bytes. rewrite float_le_bytes, length_blob.
  apply Z.leb_gt. lia.
Defined.

(** The sidecar of [photos/a.jpg] is [photos/a_compressed.jpg]. *)
Example sidecar_of_original :
  output_path original
    {| target_mb := ten_bytes; min_quality := 85; overwrite := false |}
  = Ok sidecar.
Proof. reflexivity. Qed.

(** With sizes that are not monotone in the quality the search settles on
    quality 90 although quality 100 fits as well. *)
Lemma dipping_codec_misses_highest_fit :
  (compress_jpeg dipping_codec photo sidecar ten_bytes 85 100 empty_world).1
    = Ok (true, Some 90, Some (Qmake 10 MiB)) ∧
  fits dipping_codec photo ten_bytes 100 = true ∧
  brute_force_max dipping_codec photo ten_bytes 85 100 = Some 100 ∧
  ¬ picks_highest_fit dipping_codec photo sidecar ten_bytes 85 100 empty_world.
Proof.
  split_and!; [by vm_compute..|].
  intros Hclaim.
  destruct (Hclaim 90 (Qmake 10 MiB)
              (compress_jpeg dipping_codec photo sidecar ten_bytes 85 100
                 empty_world).2) as (_ & _ & _ & Hmax & _); [by vm_compute|].
  specialize (Hmax 100). cut (100 ≤ 90); [lia|].
  apply Hmax; [lia|by vm_compute].
Qed.

Lemma compress_jpeg_picks_highest_fit_witness :
  fit_monotone steady_codec photo ten_bytes 85 100 ∧
  picks_highest_fit steady_codec photo sidecar ten_bytes 85 100 empty_world.
Proof.
  assert (Hmono : fit_monotone steady_codec photo ten_bytes 85 100).
  { intros q1 q2 H1 H12 H2. unfold fits, probe, steady_codec, ten_bytes.
    cbn [jpeg_encode]. rewrite !float_le_bytes, !length_blob.
    intros Hfit%Z.leb_le. apply Z.leb_le. lia. }
  split; [exact Hmono|].
  apply (compress_jpeg_picks_highest_fit steady_codec). exact Hmono.
Defined.

Lemma jpeg_search_terminates_witness :
  85 ≤ 100 ∧
  search_terminates steady_codec photo ten_bytes 85 100 None empty_world.
Proof.
  split; [lia|]. apply (jpeg_search_terminates steady_codec). lia.
Defined.

Lemma large_png_decodes :
  decodes_to png_codec original large_world large_file drawing
             (with_format drawing None) "PNG".
Proof.
  split_and!; [reflexivity| |reflexivity..].
  rewrite large_file_length. unfold skip_threshold. lia.
Defined.

(** No quality of [[85, 100]] fits two bytes: the failure is reported with
    the 19922945 bytes of the original file, not with the five bytes of
    the encoding at quality 85. *)
Lemma failed_jpeg_reports_original_size :
  (process_one steady_codec original (overwriting two_bytes) large_world).1
    = Ok (jpeg_label false None 85, size_mb large_file) ∧
  probe steady_codec (with_format (with_format photo None) (format photo)) 85
    = Ok (blob 5) ∧
  size_mb (blob 5) ≠ size_mb large_file ∧
  ¬ reports_size_at_min_quality steady_codec original (overwriting two_bytes)
      large_world.
Proof.
  destruct (no_fit_outcome steady_codec original (overwriting two_bytes)
              large_world large_file photo (with_format photo None) original
              large_jpeg_decodes eq_refl steady_never_fits_two_bytes)
    as (w' & _ & Hone).
  assert (Hne : size_mb (blob 5) ≠ size_mb large_file).
  { unfold size_mb. intros Heq.
    apply (f_equal Qnum) in Heq. cbn [Qnum] in Heq.
    rewrite large_file_length, length_blob in Heq. lia. }
  split_and!; [by rewrite Hone|reflexivity|exact Hne|].
  intros Hclaim.
  destruct (Hclaim large_file photo (with_format photo None) original (blob 5)
              large_jpeg_decodes eq_refl steady_never_fits_two_bytes eq_refl)
    as (w'' & _ & Hone').
  rewrite Hone in Hone'. apply Hne. congruence.
Qed.

Lemma jpeg_failure_reports_original_size_witness :
  decodes_to steady_codec original large_world large_file photo
             (with_format photo None) "JPEG" ∧
  output_path original (overwriting two_bytes) = Ok original ∧
  no_quality_fits steady_codec
    (with_format (with_format photo None) (format photo)) two_bytes 85 100 ∧
  failure_reported steady_codec original (overwriting two_bytes) large_world
    photo (with_format photo None) original (size_mb large_file).
Proof.
  split_and!;
    [exact large_jpeg_decodes|reflexivity|exact steady_never_fits_two_bytes|].
  apply (jpeg_failure_reports_original_size steady_codec original
           (overwriting two_bytes) large_world large_file photo
           (with_format photo None) original).
  - exact large_jpeg_decodes.
  - reflexivity.
  - exact steady_never_fits_two_bytes.
Defined.

Lemma failed_jpeg_search_writes_nothing_witness :
  decodes_to steady_codec original large_world large_file photo
             (with_format photo None) "JPEG" ∧
  output_path original (overwriting two_bytes) = Ok original ∧
  original_untouched steady_codec original (overwriting two_bytes) large_world
    large_file photo (with_format photo None) original failed_search_world.
Proof.
  split_and!; [exact large_jpeg_decodes|reflexivity|].
  apply (failed_jpeg_search_writes_nothing steady_codec original
           (overwriting two_bytes) large_world large_file photo
           (with_format photo None) original failed_search_world).
  - exact large_jpeg_decodes.
  - reflexivity.
  - vm_compute. reflexivity.
Defined.

Lemma small_file_is_skipped_witness :
  files small_world !! original = Some (blob 5) ∧
  Z.of_nat (length (blob 5)) ≤ skip_threshold ∧
  process_one steady_codec original (overwriting ten_bytes) small_world
    = (Ok (skip_label, size_mb (blob 5)), small_world).
Proof.
  assert (Hsmall : Z.of_nat (length (blob 5)) ≤ skip_threshold)
    by (rewrite length_blob; unfold skip_threshold; lia).
  split_and!; [reflexivity|exact Hsmall|].
  apply (small_file_is_skipped steady_codec original (overwriting ten_bytes)
           small_world (blob 5)); [reflexivity|exact Hsmall].
Defined.

Lemma batch_survives_file_errors_witness :
  Forall (λ p, is_Some (files large_world !! p)) [original] ∧
  resilient_run broken_codec [original] (overwriting ten_bytes) large_world.
Proof.
  assert (Hfiles : Forall (λ p, is_Some (files large_world !! p)) [original]).
  { constructor; [|constructor]. exists large_file. reflexivity. }
  split; [exact Hfiles|].
  apply (batch_survives_file_errors broken_codec). exact Hfiles.
Defined.

Lemma png_written_even_when_too_big_witness :
  decodes_to png_codec original large_world large_file drawing
             (with_format drawing None) "PNG" ∧
  float_le (size_mb (blob 30)) ten_bytes = false ∧
  png_replaces_original png_codec original (overwriting ten_bytes) large_world
    drawing (with_format drawing None) (blob 30).
Proof.
  split_and!; [exact large_png_decodes|reflexivity|].
  apply (png_written_even_when_too_big png_codec original
           (overwriting ten_bytes) large_world large_file drawing
           (with_format drawing None) (blob 30)).
  - exact large_png_decodes.
  - reflexivity.
  - reflexivity.
  - reflexivity.
Defined.

(** A run on [photos/a.jpg] with a target of ten bytes and [--overwrite]:
    the search probes 92, 88, 90 and 91, each time with the orientation
    set to 1 and on an image tagged JPEG although the transposition
    cleared the tag, and the encoding at quality 90 replaces the file. *)
Example large_jpeg_run :
  process_one steady_codec original (overwriting ten_bytes) large_world =
  let upright :=
    {| format := Some "JPEG"; exif := {[ ORIENT := ExifInt 1 ]};
       icc_profile := None; pixels := [] |} in
  (Ok ("JPEG ✓ (q=90)", Qmake 10 MiB),
   {| files := {[ original := blob 10 ]};
      log := [EvOpen original; EvTranspose;
              EvSaveJPEG upright 92 true [] None;
              EvSaveJPEG upright 88 true [] None;
              EvSaveJPEG upright 90 true [] None;
              EvSaveJPEG upright 91 true [] None;
              EvWrite original (blob 10)];
      console := [] |}).
Proof.
  rewrite (process_one_jpeg steady_codec original (overwriting ten_bytes)
             large_world large_file photo (with_format photo None) original
             large_jpeg_decodes eq_refl).
  vm_compute. reflexivity.
Qed.

(** * Further properties *)

(** ** The search, whatever the encoder does *)

Section SearchExtras.

Context (E : Env).

(** Without any assumption on the encoder, a successful [compress_jpeg]
    returns a quality of the range whose encoding is within the target, has
    been written to the output path and has the size returned; the next
    quality up was probed and did not fit, unless the quality returned is
    [max_q] itself. *)
Theorem compress_jpeg_local_maximum img out target min_q max_q w q mb w' :
  compress_jpeg E img out target min_q max_q w
    = (Ok (true, Some q, Some mb), w') →
  local_maximum E img out target min_q max_q q mb w'.
Proof.
  rewrite compress_jpeg_run.
  destruct (jpeg_search E img target min_q max_q None w)
    as [[[[buf q0]|]|e] w1] eqn:Hrun; [|done..].
  cbv zeta.
  destruct (write_fault E out buf) as [[msg [r|]]|]; [done..|].
  intros [= -> <- <-].
  apply jpeg_search_result in Hrun.
  destruct Hrun as [[[=] _]|(buf' & q' & [= <- <-] & Hq & Hp & Hf & Hnext)].
  split_and!; [lia|lia| |done|done].
  exists buf. split_and!; [done| |done].
  unfold set_files; cbn [files]. by rewrite lookup_insert_eq.
Qed.

(** When meeting the target is monotone in the quality, [compress_jpeg]
    reports failure only if no quality of the range has an encoding within
    the target. *)
Theorem jpeg_failure_means_nothing_fits img out target min_q max_q w w' :
  fit_monotone E img target min_q max_q →
  compress_jpeg E img out target min_q max_q w
    = (Ok (false, None, None), w') →
  ∀ q, min_q ≤ q ≤ max_q → fits E img target q = false.
Proof.
  intros Hmono. rewrite compress_jpeg_run.
  destruct (jpeg_search E img target min_q max_q None w)
    as [[[[buf q0]|]|e] w1] eqn:Hrun; [| |done].
  { cbv zeta. by destruct (write_fault E out buf) as [[msg [r|]]|]. }
  intros _ q Hq.
  apply jpeg_search_result in Hrun.
  destruct Hrun as [[_ Hlo]|(buf' & q' & [=] & _)].
  destruct (fits E img target q) eqn:Hfit; [|done].
  rewrite (Hmono min_q q) in Hlo; [|lia..|done].
  by specialize (Hlo ltac:(lia)).
Qed.

(** The number of encoder calls of the search is logarithmic in the width
    of the range. *)
Lemma jpeg_search_probe_count img target lo hi best w :
  ∃ qs, log (jpeg_search E img target lo hi best w).2
          = log w ++ map (probe_event E img) qs ∧
        (qs = [] ∨ 2 ^ Z.of_nat (length qs) ≤ 2 * (hi - lo + 1)).
Proof.
  revert img best w. pattern lo, hi. apply width_ind; clear lo hi.
  intros lo hi IH img best w.
  rewrite jpeg_search_round.
  destruct (decide (lo ≤ hi)) as [Hle|Hgt]; cbn [snd].
  2:{ exists []. rewrite app_nil_r. split; [done|by left]. }
  pose proof (midpoint_bounds lo hi Hle) as Hq.
  set (q := (lo + hi) / 2) in *. cbv zeta.
  set (w1 := add_event (probe_event E img q) w).
  set (Post := λ w' : world,
         ∃ qs, log w' = log w ++ map (probe_event E img) qs ∧
               (qs = [] ∨ 2 ^ Z.of_nat (length qs) ≤ 2 * (hi - lo + 1))).
  assert (Hone : Post w1).
  { exists [q]. split; [done|]. right. cbn. lia. }
  assert (Hrec : ∀ lo' hi' best',
            lo ≤ lo' → hi' ≤ hi → 2 * (hi' - lo' + 1) ≤ hi - lo + 1 →
            Post (jpeg_search E (normalized E img) target lo' hi' best' w1).2).
  { intros lo' hi' best' Hlo Hhi Hhalf.
    destruct (IH lo' hi' ltac:(lia) (normalized E img) best' w1)
      as (qs & Hl & Hn).
    exists (q :: qs). split.
    - rewrite Hl. unfold w1, add_event; cbn [log map].
      rewrite <- app_assoc. cbn [app]. f_equal. f_equal.
      apply map_ext; intros; apply probe_event_normalized.
    - right. cbn [length]. rewrite Nat2Z.inj_succ, Z.pow_succ_r by lia.
      destruct Hn as [->|Hn]; [cbn; lia|lia]. }
  change (Post (match probe E img q with
                | Ok buf =>
                    if float_le (size_mb buf) target
                    then jpeg_search E (normalized E img) target (q + 1) hi
                           (Some (buf, q)) w1
                    else jpeg_search E (normalized E img) target lo (q - 1)
                           best w1
                | Raise e => (Raise e, w1)
                end).2).
  destruct (probe E img q) as [buf|e]; [|exact Hone].
  assert (Hdiv : 2 * q ≤ lo + hi < 2 * q + 2).
  { unfold q. pose proof (Z.div_mod (lo + hi) 2 ltac:(lia)).
    pose proof (Z.mod_pos_bound (lo + hi) 2 ltac:(lia)). lia. }
  destruct (float_le (size_mb buf) target); apply Hrec; lia.
Qed.

Theorem jpeg_search_logarithmic_cost img target lo hi best w :
  logarithmic_cost E img target lo hi best w.
Proof.
  destruct (jpeg_search_probe_count img target lo hi best w)
    as (qs & Hlog & Hn).
  exists qs. split_and!; [done..|].
  intros Hlo Hhi. destruct Hn as [->|Hn]; [cbn; lia|].
  destruct (decide (length qs ≤ 7)%nat) as [|Hmany]; [done|].
  assert (2 ^ 8 ≤ 2 ^ Z.of_nat (length qs))
    by (apply Z.pow_le_mono_r; lia).
  lia.
Qed.

(** With a target that no size is under ([nan] or [-inf]) [compress_jpeg]
    never succeeds and never writes: it reports failure, or raises what the
    encoder raised, and the files are as they were. *)
Theorem unreachable_target_never_written img out target min_q max_q w :
  target = NaN ∨ target = NegInf →
  files (compress_jpeg E img out target min_q max_q w).2 = files w ∧
  ((compress_jpeg E img out target min_q max_q w).1 = Ok (false, None, None) ∨
   ∃ e, (compress_jpeg E img out target min_q max_q w).1 = Raise e).
Proof.
  intros Htarget.
  assert (Hno : ∀ x, float_le x target = false)
    by (intros x; by destruct Htarget as [->| ->]).
  rewrite compress_jpeg_run.
  destruct (jpeg_search_log E img target min_q max_q None w) as (Hf & _).
  destruct (jpeg_search E img target min_q max_q None w)
    as [[[[buf q0]|]|e] w1] eqn:Hrun; cbn [fst snd] in *.
  - apply jpeg_search_result in Hrun.
    destruct Hrun as [[[=] _]|(buf' & q' & _ & _ & _ & Hfit & _)].
    by rewrite Hno in Hfit.
  - split; [done|by left].
  - split; [done|right; by exists e].
Qed.

End SearchExtras.

(** ** One file, further *)

Section FileExtras.

Context (E : Env).

(** [strip_orientation] is idempotent, bytes included, and keeps the set
    of tags: it never adds the orientation tag to a dictionary without
    one. *)
Theorem strip_orientation_twice (e : gmap Z exif_value) :
  strip_orientation E (strip_orientation E e).1 = strip_orientation E e ∧
  dom (strip_orientation E e).1 = dom e.
Proof.
  split; [apply strip_orientation_idem|].
  unfold strip_orientation; cbn [fst].
  destruct (e !! ORIENT) eqn:He; [|done].
  rewrite dom_insert_L.
  assert (Hin : ORIENT ∈ dom e) by (apply elem_of_dom; by eexists).
  apply set_eq. intros tag. rewrite elem_of_union, elem_of_singleton.
  split; [intros [->|?]; done|by right].
Qed.

(** A large file whose format is neither JPEG nor PNG gets the label
    [<format> unsupported] with its own size; it is opened and transposed,
    but nothing is encoded and no file changes. *)
Theorem unsupported_format_untouched path args w data d t fmt out :
  decodes_to E path w data d t fmt →
  fmt ≠ "JPEG" → fmt ≠ "PNG" →
  output_path path args = Ok out →
  process_one E path args w
    = (Ok (fmt +:+ " unsupported", size_mb data), transposed path w).
Proof.
  intros (Hfile & Hlarge & Hdec & Hfmt & Htrans) Hjpeg Hpng Hout.
  rewrite (process_one_run _ _ _ _ data Hfile).
  apply large_file_not_skipped in Hlarge. rewrite Hlarge.
  rewrite try_body_run, Hfile, Hdec, Htrans, Hout. cbv zeta.
  rewrite !bool_decide_eq_false_2 by (rewrite Hfmt; congruence).
  by rewrite Hfmt.
Qed.

(** With a minimum quality above 100 the range of the search is empty: a
    large JPEG is reported as a failure with its own size, without a
    single encode and without a write. *)
Theorem empty_quality_range_fails path args w data d t out :
  decodes_to E path w data d t "JPEG" →
  output_path path args = Ok out →
  100 < min_quality args →
  process_one E path args w
    = (Ok (jpeg_label false None (min_quality args), size_mb data),
       transposed path w).
Proof.
  intros Hdec Hout Hmin.
  rewrite (process_one_jpeg E path args w data d t out Hdec Hout).
  rewrite compress_jpeg_run, jpeg_search_round.
  destruct (decide (min_quality args ≤ 100)); [lia|done].
Qed.

End FileExtras.

(** ** Sidecar paths *)

Lemma rsplit_dot_last (s a b : string) :
  rsplit_dot s = Some (a, b) →
  ∃ b', b = String "." b' ∧ rsplit_dot b' = None.
Proof.
  revert a b. induction s as [|c s IH]; intros a b; cbn [rsplit_dot]; [done|].
  destruct (rsplit_dot s) as [[a' b']|] eqn:Hs.
  - intros [= <- <-]. by eapply IH.
  - destruct (Ascii.eqb_spec c "."); [|done].
    intros [= <- <-]. subst c. by exists s.
Qed.

Lemma rsplit_dot_append (x b' : string) :
  rsplit_dot b' = None →
  rsplit_dot (x +:+ String "." b') = Some (x, String "." b').
Proof.
  intros Hb. induction x as [|c x IH].
  - change (EmptyString +:+ String "." b') with (String "." b').
    cbn [rsplit_dot]. by rewrite Hb.
  - rewrite append_cons. cbn [rsplit_dot]. by rewrite IH.
Qed.

Lemma append_inj_r (a b c : string) : a +:+ c = b +:+ c → a = b.
Proof.
  revert b. induction a as [|x a IH]; intros [|y b] Heq; [done|..].
  - apply (f_equal String.length) in Heq.
    rewrite !length_append in Heq. cbn in Heq. lia.
  - apply (f_equal String.length) in Heq.
    rewrite !length_append in Heq. cbn in Heq. lia.
  - rewrite !append_cons in Heq. injection Heq as -> Heq.
    f_equal. by apply IH.
Qed.

(** A file with a suffix has a suffix of at least two characters, a
    non-empty stem, and a sidecar. *)
Lemma suffix_nonempty (p : Path) :
  suffix p ≠ EmptyString →
  ∃ b', suffix p = String "." b' ∧ b' ≠ EmptyString ∧
        rsplit_dot b' = None ∧ name p ≠ EmptyString.
Proof.
  unfold suffix. intros Hsuf.
  destruct (rsplit_dot (name p)) as [[a b]|] eqn:Hsplit; [|done].
  destruct (bool_decide (a ≠ EmptyString) && (1 <? String.length b)%nat)
    eqn:Hok; [|done].
  apply andb_true_iff in Hok as [Ha Hb]. apply Nat.ltb_lt in Hb.
  destruct (rsplit_dot_last _ _ _ Hsplit) as (b' & -> & Hnone).
  exists b'. split_and!; [done| |done|].
  - intros ->. cbn in Hb. lia.
  - intros Hname. by rewrite Hname in Hsplit.
Qed.

Lemma suffix_of_split (p : Path) (a b : string) :
  rsplit_dot (name p) = Some (a, b) →
  a ≠ EmptyString → (1 < String.length b)%nat →
  suffix p = b ∧ stem p = a.
Proof.
  intros Hsplit Ha Hb. unfold suffix, stem. rewrite Hsplit.
  rewrite bool_decide_eq_true_2 by done.
  apply Nat.ltb_lt in Hb. by rewrite Hb.
Qed.

Lemma sidecar_parts (p : Path) :
  suffix p ≠ EmptyString →
  ∃ out, with_stem p (stem p +:+ "_compressed") = Ok out ∧
         parent out = parent p ∧
         suffix out = suffix p ∧
         stem out = stem p +:+ "_compressed".
Proof.
  intros Hsuf.
  destruct (suffix_nonempty p Hsuf) as (b' & Hb & Hne & Hnone & Hname).
  unfold with_stem, with_name. rewrite bool_decide_eq_false_2 by done.
  eexists. split; [reflexivity|]. split; [reflexivity|].
  apply suffix_of_split.
  - cbn [name]. rewrite Hb. by apply rsplit_dot_append.
  - intros Heq. apply (f_equal String.length) in Heq.
    rewrite length_append in Heq. cbn in Heq. lia.
  - rewrite Hb. destruct b'; [done|cbn; lia].
Qed.

(** The sidecar round trip: for a file with a suffix, the sidecar's
    suffix is the file's suffix, unchanged, its stem is the file's stem
    followed by [_compressed], and it lies in the same directory. *)
Theorem sidecar_keeps_suffix (p : Path) :
  suffix p ≠ EmptyString →
  ∃ out, with_stem p (stem p +:+ "_compressed") = Ok out ∧
         parent out = parent p ∧
         suffix out = suffix p ∧
         stem out = stem p +:+ "_compressed".
Proof. apply sidecar_parts. Qed.

(** Two different files with a suffix never share a sidecar. *)
Theorem sidecar_injective (p1 p2 out : Path) :
  suffix p1 ≠ EmptyString → suffix p2 ≠ EmptyString →
  with_stem p1 (stem p1 +:+ "_compressed") = Ok out →
  with_stem p2 (stem p2 +:+ "_compressed") = Ok out →
  p1 = p2.
Proof.
  intros H1 H2 Hout1 Hout2.
  destruct (sidecar_parts p1 H1) as (o1 & Ho1 & Hp1 & Hs1 & Ht1).
  destruct (sidecar_parts p2 H2) as (o2 & Ho2 & Hp2 & Hs2 & Ht2).
  rewrite Hout1 in Ho1. rewrite Hout2 in Ho2.
  injection Ho1 as <-. injection Ho2 as <-.
  assert (Hstem : stem p1 = stem p2).
  { apply (append_inj_r _ _ "_compressed"). by rewrite <- Ht1, <- Ht2. }
  assert (Hname : name p1 = name p2).
  { rewrite <- (stem_suffix p1), <- (stem_suffix p2).
    by rewrite Hstem, <- Hs1, <- Hs2. }
  destruct p1, p2; cbn in *. congruence.
Qed.

(** ** A whole run, further *)

Section RunExtras.

Context (E : Env).

Lemma cli_loop_frame fl args w :
  run_frame E fl args w.
Proof.
  unfold run_frame. cbv zeta. revert w.
  induction fl as [|f rest IH]; intros w; [by split|].
  rewrite cli_loop_cons.
  destruct (process_one_frame E f args w) as (Hframe & Hkeep & _).
  destruct (process_one E f args w) as [[[label mb]|e] w1];
    cbn [snd] in Hframe, Hkeep.
  - destruct (IH (printed (f, label, mb) w1)) as (Hrest & Hkeep').
    cbn [printed files] in Hrest, Hkeep'. split.
    + intros p Hp. rewrite Hrest.
      * apply Hframe, Hp. by left.
      * intros g Hg. apply Hp. by right.
    + intros p Hp. by apply Hkeep', Hkeep.
  - cbn [snd]. split; [|done].
    intros p Hp. apply Hframe, Hp. by left.
Qed.

(** A run changes no file but the output paths of the files it is given,
    and removes none: without [--overwrite] a file keeps its bytes unless
    it is itself the sidecar of a listed file. *)
Theorem run_touches_only_outputs fl args w :
  run_frame E fl args w.
Proof. apply cli_loop_frame. Qed.

Lemma process_one_overwrite_dom f args w p :
  overwrite args = true →
  is_Some (files (process_one E f args w).2 !! p) ↔ is_Some (files w !! p).
Proof.
  intros Hov.
  destruct (files w !! f) as [data|] eqn:Hfile.
  2:{ by rewrite (missing_file_escapes E f args w Hfile). }
  destruct (process_one_frame E f args w) as (Hframe & Hkeep & _).
  assert (Hout : output_path f args = Ok f)
    by (unfold output_path; by rewrite Hov).
  rewrite Hout in Hframe.
  split; [|apply Hkeep].
  destruct (decide (p = f)) as [->|Hne]; [by rewrite Hfile|].
  rewrite Hframe; [done|congruence].
Qed.

(** With [--overwrite] a run creates no file and removes none: the set of
    files is the same before and after. *)
Theorem overwrite_creates_no_file fl args w :
  overwrite args = true →
  ∀ p, is_Some (files (cli_loop E fl args w).2 !! p) ↔ is_Some (files w !! p).
Proof.
  intros Hov. revert w. induction fl as [|f rest IH]; intros w p; [done|].
  rewrite cli_loop_cons.
  pose proof (process_one_overwrite_dom f args w p Hov) as Hone.
  destruct (process_one E f args w) as [[[label mb]|e] w1];
    cbn [snd] in *; [|done].
  by rewrite IH.
Qed.

Section WithTree.

Context (T : Tree).

Lemma scan_spec root w p :
  p ∈ scan T root w → wanted p = true ∧ is_Some (files w !! p).
Proof.
  unfold scan. rewrite list_elem_of_In, filter_In.
  intros [_ Hp]. apply andb_true_iff in Hp as [Hw Hf].
  split; [done|]. by apply bool_decide_eq_true in Hf.
Qed.


Lemma wanted_has_suffix p : wanted p = true → suffix p ≠ EmptyString.
Proof.
  unfold wanted. intros Hw%bool_decide_eq_true Hsuf.
  rewrite Hsuf in Hw. cbn in Hw.
  by repeat (apply elem_of_cons in Hw as [Hw|Hw]; [done|]);
     apply elem_of_nil in Hw.
Qed.

Lemma wanted_output f args out :
  wanted f = true → output_path f args = Ok out → wanted out = true.
Proof.
  intros Hw. unfold output_path.
  destruct (overwrite args); [by intros [= <-]|].
  intros Hout.
  destruct (sidecar_parts f (wanted_has_suffix f Hw))
    as (out' & Hout' & _ & Hsuf & _).
  rewrite Hout in Hout'. injection Hout' as <-.
  unfold wanted in *. by rewrite Hsuf.
Qed.

(** A run of [cli] never changes a file whose extension is not one of
    [.jpg], [.jpeg], [.png] (in any case): no such file is scanned, and no
    output path has such an extension. *)
Theorem other_extensions_untouched root args w p :
  wanted p = false →
  files (cli E T root args w).2 !! p = files w !! p.
Proof.
  intros Hp. unfold cli.
  destruct (is_dir T root); [|done].
  destruct (cli_loop_frame (scan T root w) args w) as (Hframe & _).
  assert (Hsame : files (cli_loop E (scan T root w) args w).2 !! p
                  = files w !! p).
  { apply Hframe. intros f Hf Hout.
    apply scan_spec in Hf as [Hw _].
    apply (wanted_output f args p Hw) in Hout. congruence. }
  by destruct (cli_loop E (scan T root w) args w) as [[[]|e] w'].
Qed.

End WithTree.

End RunExtras.

(** ** Status lines *)

Lemma occurs_app (c : ascii) (a b : string) :
  occurs c (a +:+ b) ↔ occurs c a ∨ occurs c b.
Proof.
  induction a as [|x a IH].
  - change (EmptyString +:+ b) with b. cbn. tauto.
  - rewrite append_cons. cbn. rewrite IH. tauto.
Qed.

Lemma prefix_occurs (c : ascii) (n s : string) :
  String.prefix n s = true → occurs c n → occurs c s.
Proof.
  revert s. induction n as [|a n IH]; intros s; [done|].
  destruct s as [|b s]; cbn [String.prefix]; [done|].
  destruct (ascii_dec a b) as [->|]; [|done].
  intros Hp [->|Hc]; [by left|right; by apply IH].
Qed.

Lemma contains_occurs (c : ascii) (n s : string) :
  contains n s = true → occurs c n → occurs c s.
Proof.
  induction s as [|b s IH]; cbn [contains]; intros Hc Hn.
  - rewrite orb_false_r in Hc. by eapply prefix_occurs.
  - apply orb_true_iff in Hc as [Hp|Hc].
    + by eapply prefix_occurs.
    + right. by apply IH.
Qed.

Lemma prefix_app_l (n a b : string) :
  String.prefix n a = true → String.prefix n (a +:+ b) = true.
Proof.
  revert a. induction n as [|x n IH]; intros a.
  - intros _. by destruct (a +:+ b).
  - destruct a as [|y a]; cbn [String.prefix]; [done|].
    rewrite append_cons. cbn [String.prefix].
    destruct (ascii_dec x y); [apply IH|done].
Qed.

Lemma contains_app_l (n a b : string) :
  contains n a = true → contains n (a +:+ b) = true.
Proof.
  induction a as [|y a IH]; cbn [contains].
  - rewrite orb_false_r. intros Hp.
    apply (prefix_app_l n EmptyString b) in Hp.
    destruct (EmptyString +:+ b); cbn [contains]; by rewrite Hp.
  - rewrite append_cons. cbn [contains].
    intros [Hp|Hc]%orb_true_iff.
    + apply (prefix_app_l n (String y a) b) in Hp.
      rewrite append_cons in Hp. by rewrite Hp.
    + rewrite IH by done. apply orb_true_r.
Qed.

(** A match cannot begin in a part in which the needle's first byte does
    not occur. *)
Lemma contains_skip (a : ascii) (n pre e : string) :
  ¬ occurs a pre →
  contains (String a n) (pre +:+ e) = contains (String a n) e.
Proof.
  induction pre as [|x pre IH]; intros Hno; [done|].
  rewrite append_cons. cbn [contains String.prefix].
  destruct (ascii_dec a x) as [->|_]; [exfalso; apply Hno; by left|].
  cbn [orb]. apply IH. intros Hin. apply Hno. by right.
Qed.

Lemma prefix_before_space (n y s : string) :
  n ≠ EmptyString → ¬ occurs " " n →
  String.prefix n (y +:+ String " " s) = String.prefix n y.
Proof.
  revert y. induction n as [|a n IH]; intros y Hne Hsp; [done|].
  destruct y as [|b y].
  - change (EmptyString +:+ String " " s) with (String " " s).
    cbn [String.prefix].
    destruct (ascii_dec a " ") as [->|_]; [|done].
    exfalso. apply Hsp. by left.
  - rewrite append_cons. cbn [String.prefix].
    destruct (ascii_dec a b); [|done].
    destruct n as [|a' n']; [by destruct (y +:+ String " " s), y|].
    apply IH; [done|]. intros Hin. apply Hsp. by right.
Qed.

Lemma contains_before_space (n x s : string) :
  n ≠ EmptyString → ¬ occurs " " n →
  contains n (x +:+ String " " s)
  = contains n x || contains n (String " " s).
Proof.
  intros Hne Hsp. induction x as [|c x IH].
  - change (EmptyString +:+ String " " s) with (String " " s).
    cbn [contains]. destruct n; [done|]. cbn [String.prefix].
    by rewrite orb_false_r.
  - rewrite append_cons.
    change (contains n (String c (x +:+ String " " s)))
      with (String.prefix n (String c (x +:+ String " " s))
            || contains n (x +:+ String " " s)).
    rewrite <- append_cons, prefix_before_space by done.
    rewrite IH. cbn [contains]. by rewrite orb_assoc.
Qed.

Lemma pretty_N_char_digit (x : N) : is_digit (pretty_N_char x).
Proof.
  unfold pretty_N_char, is_digit.
  repeat case_match; vm_compute; split;
    repeat first [apply le_n | apply le_S].
Qed.

Lemma pretty_N_go_occurs (x : N) (s : string) (c : ascii) :
  occurs c (pretty_N_go x s) → occurs c s ∨ is_digit c.
Proof.
  revert s. induction (N.lt_wf_0 x) as [x _ IH]; intros s.
  assert (x = 0 ∨ 0 < x)%N as [->|Hpos] by lia.
  - rewrite pretty_N_go_0. by left.
  - rewrite pretty_N_go_step by done. intros Hc.
    apply IH in Hc; [|by apply N.div_lt].
    destruct Hc as [[->|Hc]|Hc]; [right|by left|by right].
    apply pretty_N_char_digit.
Qed.

(** The decimal rendering of an integer holds digits and a minus sign
    only. *)
Lemma pretty_Z_occurs (z : Z) (c : ascii) :
  occurs c (pretty z) → c = "-"%char ∨ is_digit c.
Proof.
  assert (Hpos : ∀ p : positive,
            occurs c (pretty p) → c = "-"%char ∨ is_digit c).
  { intros p. unfold pretty, pretty_positive, pretty, pretty_N.
    case_decide; [done|]. intros Hc.
    apply pretty_N_go_occurs in Hc as [[]|Hc]. by right. }
  destruct z as [|p|p].
  - change (pretty 0%Z) with "0". intros [->|[]]. right.
    unfold is_digit. vm_compute.
    split; repeat first [apply le_n | apply le_S].
  - change (pretty (Z.pos p)) with (pretty p). apply Hpos.
  - change (pretty (Z.neg p)) with ("-" +:+ pretty p).
    rewrite occurs_app. intros [[->|[]]|Hc]; [by left|exact (Hpos p Hc)].
Qed.

Lemma failure_label_plain (c : ascii) (min_q : Z) :
  c ≠ "-"%char → ¬ is_digit c →
  ¬ occurs c "JPEG ✗ (≥q" → ¬ occurs c " still big)" →
  ¬ occurs c (jpeg_label false None min_q).
Proof.
  intros Hdash Hdigit Hpre Hpost. unfold jpeg_label.
  rewrite !occurs_app. intros [Hc|[Hc|Hc]]; [done| |done].
  apply pretty_Z_occurs in Hc as [Hc|Hc]; done.
Qed.

(** The labels [process_one] makes itself get the colour of their
    outcome: grey for a skip, green for a success, red for a failure, for
    every quality and every minimum quality. *)
Theorem own_labels_have_their_colour : own_labels_coloured.
Proof.
  unfold own_labels_coloured. split_and!; [reflexivity| | |reflexivity..].
  - intros q min_q. unfold status_colour, jpeg_label.
    by rewrite (contains_app_l "✓" "JPEG ✓ (q=").
  - intros q min_q. unfold status_colour.
    change (jpeg_label false q min_q) with (jpeg_label false None min_q).
    assert (Htick : contains "✓" (jpeg_label false None min_q) = false).
    { apply not_true_is_false. intros Hc.
      apply (contains_occurs (ascii_of_nat 147)) in Hc;
        [|right; right; by left].
      revert Hc. apply failure_label_plain; [done| | |].
      - unfold is_digit. vm_compute. intros [_ H].
        repeat (apply le_S_n in H). inversion H.
      - vm_compute. intuition discriminate.
      - vm_compute. intuition discriminate. }
    assert (Hskip : contains "skip" (jpeg_label false None min_q) = false).
    { apply not_true_is_false. intros Hc.
      apply (contains_occurs "k") in Hc; [|right; by left].
      revert Hc. apply failure_label_plain; [done| | |].
      - unfold is_digit. vm_compute. intros [_ H].
        repeat (apply le_S_n in H). inversion H.
      - vm_compute. intuition discriminate.
      - vm_compute. intuition discriminate. }
    rewrite Htick, Hskip. unfold jpeg_label.
    by rewrite (contains_app_l "✗" "JPEG ✗ (≥q").
Qed.

(** The colour of an error line depends on the message: it is red, unless
    the message itself contains a check mark, which makes the line green,
    or the word [skip], which makes it grey. *)
Theorem error_label_colour (e : string) :
  status_colour ("error: " +:+ e)
  = if contains "✓" e then green
    else if contains "skip" e then grey50
    else red.
Proof.
  unfold status_colour.
  rewrite (contains_skip _ _ "error: " e)
    by (vm_compute; intuition discriminate).
  rewrite (contains_skip "s" "kip" "error: " e)
    by (vm_compute; intuition discriminate).
  rewrite (contains_app_l "error" "error: " e) by reflexivity.
  by rewrite orb_true_r.
Qed.

(** A format name without any of the four markers gives a yellow
    [<format> unsupported] line. *)
Theorem unsupported_label_colour (fmt : string) :
  contains "✓" fmt = false → contains "skip" fmt = false →
  contains "✗" fmt = false → contains "error" fmt = false →
  status_colour (fmt +:+ " unsupported") = yellow.
Proof.
  intros Htick Hskip Hcross Herror. unfold status_colour.
  rewrite !contains_before_space
    by (try done; vm_compute; intuition discriminate).
  by rewrite Htick, Hskip, Hcross, Herror.
Qed.







(** ** Examples for the further properties *)

Lemma steady_monotone (target : Z) :
  fit_monotone steady_codec photo (Finite (Qmake target MiB)) 85 100.
Proof.
  intros q1 q2 H1 H12 H2. unfold fits, probe, steady_codec.
  cbn [jpeg_encode]. rewrite !float_le_bytes, !length_blob.
  intros Hfit%Z.leb_le. apply Z.leb_le. lia.
Defined.

Lemma large_bmp_decodes :
  decodes_to bmp_codec original large_world large_file bitmap
             (with_format bitmap None) "BMP".
Proof.
  split_and!; [reflexivity| |reflexivity..].
  rewrite large_file_length. unfold skip_threshold. lia.
Defined.

Lemma compress_jpeg_local_maximum_witness :
  local_maximum dipping_codec photo sidecar ten_bytes 85 100 90
    (Qmake 10 MiB)
    (compress_jpeg dipping_codec photo sidecar ten_bytes 85 100 empty_world).2.
Proof.
  apply (compress_jpeg_local_maximum dipping_codec photo sidecar ten_bytes
           85 100 empty_world).
  vm_compute. reflexivity.
Defined.

Lemma jpeg_failure_means_nothing_fits_witness :
  fit_monotone steady_codec photo two_bytes 85 100 ∧
  ∀ q, 85 ≤ q ≤ 100 → fits steady_codec photo two_bytes q = false.
Proof.
  split; [exact (steady_monotone 2)|].
  apply (jpeg_failure_means_nothing_fits steady_codec photo sidecar two_bytes
           85 100 empty_world
           (compress_jpeg steady_codec photo sidecar two_bytes 85 100
              empty_world).2).
  - exact (steady_monotone 2).
  - vm_compute. reflexivity.
Defined.

Lemma unreachable_target_never_written_witness :
  (NaN = NaN ∨ NaN = NegInf) ∧
  files (compress_jpeg steady_codec photo sidecar NaN 85 100 empty_world).2
    = files empty_world.
Proof.
  split; [by left|].
  apply (unreachable_target_never_written steady_codec photo sidecar NaN
           85 100 empty_world).
  by left.
Defined.

Lemma unsupported_format_untouched_witness :
  decodes_to bmp_codec original large_world large_file bitmap
             (with_format bitmap None) "BMP" ∧
  process_one bmp_codec original (overwriting ten_bytes) large_world
    = (Ok ("BMP unsupported", size_mb large_file),
       transposed original large_world).
Proof.
  split; [exact large_bmp_decodes|].
  apply (unsupported_format_untouched bmp_codec original
           (overwriting ten_bytes) large_world large_file bitmap
           (with_format bitmap None) "BMP" original).
  - exact large_bmp_decodes.
  - discriminate.
  - discriminate.
  - reflexivity.
Defined.

Lemma empty_quality_range_fails_witness :
  100 < 101 ∧
  process_one steady_codec original
    {| target_mb := ten_bytes; min_quality := 101; overwrite := true |}
    large_world
  = (Ok ("JPEG ✗ (≥q101 still big)", size_mb large_file),
     transposed original large_world).
Proof.
  split; [lia|].
  apply (empty_quality_range_fails steady_codec original
           {| target_mb := ten_bytes; min_quality := 101; overwrite := true |}
           large_world large_file photo (with_format photo None) original).
  - exact large_jpeg_decodes.
  - reflexivity.
  - cbn. lia.
Defined.

Lemma sidecar_keeps_suffix_witness :
  suffix original ≠ EmptyString ∧
  ∃ out, with_stem original (stem original +:+ "_compressed") = Ok out ∧
         parent out = parent original ∧
         suffix out = suffix original ∧
         stem out = stem original +:+ "_compressed".
Proof.
  split; [discriminate|].
  apply (sidecar_keeps_suffix original). discriminate.
Defined.

Lemma sidecar_injective_witness :
  with_stem original (stem original +:+ "_compressed") = Ok sidecar ∧
  original = original.
Proof.
  split; [reflexivity|].
  apply (sidecar_injective original original sidecar);
    [discriminate|discriminate|reflexivity|reflexivity].
Defined.

Lemma overwrite_creates_no_file_witness :
  overwrite (overwriting ten_bytes) = true ∧
  ∀ p, is_Some (files (cli_loop steady_codec [original]
                         (overwriting ten_bytes) large_world).2 !! p)
       ↔ is_Some (files large_world !! p).
Proof.
  split; [reflexivity|].
  apply (overwrite_creates_no_file steady_codec [original]
           (overwriting ten_bytes) large_world).
  reflexivity.
Defined.

Lemma other_extensions_untouched_witness :
  wanted notes = false ∧
  files (cli steady_codec photos_tree photos (overwriting ten_bytes)
           large_world).2 !! notes
  = files large_world !! notes.
Proof.
  split; [reflexivity|].
  apply (other_extensions_untouched steady_codec photos_tree photos
           (overwriting ten_bytes) large_world notes).
  reflexivity.
Defined.

Lemma unsupported_label_colour_witness :
  status_colour ("BMP" +:+ " unsupported") = yellow.
Proof.
  apply (unsupported_label_colour "BMP"); reflexivity.
Defined.

